(** * carbon-c-relay: the aggregator (aggregator.c)

    A shallow embedding of [aggregator_new], [aggregator_putmetric] and
    the body of the [aggregator_expire] thread, and the properties of
    the window ring that the specification states about them.

    Conventions of the embedding.
    - C integers are [Z] with the wrap-around of their type written
      out: [unsigned int] is 32 bits, [int] is 32 bits two's
      complement, [long long] and [time_t] are 64 bits two's complement,
      [size_t] is 64 bits (LP64).  Signed overflow and the narrowing of
      a [long long] into an [int] wrap, as the machine does.
    - [double] is IEEE 754 binary64: Rocq's primitive [float].
    - a [char *] into a NUL-terminated buffer is the [string] of the
      characters from the pointer up to the terminator.
    - [buckets] is an array of pointers to separately allocated
      structs; no two slots alias, so the array is a [list] of bucket
      values.  An access outside the array is the result [OutOfBounds].
    - aggregator.h, which declares the structs, is not among the
      sources; the records below follow the data model of the
      specification, with the field names of aggregator.c and the types
      that aggregator.c uses the fields at. *)

From Stdlib Require Import ZArith String Ascii Lia Floats.
From stdpp Require Import base list.

Open Scope Z_scope.

(** ** Machine integers *)

Module C.

Definition wrap_unsigned (bits z : Z) : Z := z mod 2 ^ bits.

Definition wrap_signed (bits z : Z) : Z :=
  (z + 2 ^ (bits - 1)) mod 2 ^ bits - 2 ^ (bits - 1).

Definition uint (z : Z) : Z := wrap_unsigned 32 z.
Definition int (z : Z) : Z := wrap_signed 32 z.
Definition llong (z : Z) : Z := wrap_signed 64 z.
Definition size_t (z : Z) : Z := wrap_unsigned 64 z.

Definition LLONG_MAX : Z := 2 ^ 63 - 1.
Definition LLONG_MIN : Z := - 2 ^ 63.

(** [(double)n] for a [size_t] n.  Below 2^63 it is the conversion of
    a non-negative 63-bit integer; above, the value is halved with
    the lost bit kept as a sticky bit, converted, and doubled, which
    rounds as the direct conversion does. *)
Definition double_of_size_t (n : Z) : float :=
  if n <? 2 ^ 63 then PrimFloat.of_uint63 (Uint63.of_Z n)
  else
    let h := Z.lor (Z.shiftr n 1) (Z.land n 1) in
    PrimFloat.mul (PrimFloat.of_uint63 (Uint63.of_Z h)) 2%float.

End C.

(** ** C strings *)

Definition nl : string := String (ascii_of_nat 10) EmptyString.

(** [strchr s c] for [c] other than NUL: the string from the first
    occurrence of [c] on, or NULL. *)
Fixpoint strchr (s : string) (c : ascii) : option string :=
  match s with
  | EmptyString => None
  | String a r => if Ascii.eqb a c then Some s else strchr r c
  end.

(** [p + 1] for a pointer [p] that is not at the terminator. *)
Definition next_char (p : string) : string :=
  match p with
  | EmptyString => EmptyString
  | String _ r => r
  end.

Definition isspace (c : ascii) : bool :=
  let n := Z.of_nat (nat_of_ascii c) in
  (n =? 32) || ((9 <=? n) && (n <=? 13)).

Definition digit_of (c : ascii) : option Z :=
  let n := Z.of_nat (nat_of_ascii c) in
  if (48 <=? n) && (n <=? 57) then Some (n - 48) else None.

Fixpoint skip_space (s : string) : string :=
  match s with
  | String a r => if isspace a then skip_space r else s
  | EmptyString => s
  end.

Fixpoint digits (acc : Z) (s : string) : Z :=
  match s with
  | String a r =>
      match digit_of a with
      | Some d => digits (acc * 10 + d) r
      | None => acc
      end
  | EmptyString => acc
  end.

Definition clamp_llong (z : Z) : Z :=
  Z.max C.LLONG_MIN (Z.min C.LLONG_MAX z).

(** [atoll] is [strtoll (s, NULL, 10)]: leading white space, an optional
    sign, decimal digits up to the first other character, the result
    clamped to the range of [long long]. *)
Definition atoll (s : string) : Z :=
  match skip_space s with
  | String "-"%char r => clamp_llong (- digits 0 r)
  | String "+"%char r => clamp_llong (digits 0 r)
  | r => clamp_llong (digits 0 r)
  end.

(** ** The data of aggregator.h *)

Module Bucket.
(** Modelled from the spec: [struct _bucket] of aggregator.h, which is
    not among the sources.  The specification's Bucket is
    [{ windowStart: timestamp, count: uint, sum, min, max: float64 }];
    aggregator.c prints [start] with [%lld], to which it adds and from
    which it subtracts [long long] values, and [cnt] with [%zd]. *)
Record t : Type := mk
  { start : Z       (* long long *)
  ; cnt : Z         (* size_t *)
  ; sum : float
  ; max : float
  ; min : float }.
End Bucket.
Abbreviation bucket := Bucket.t.

(** Modelled from the spec: the kinds of [struct _aggr_computes] of
    aggregator.h, which is not among the sources.  The specification's
    StatisticSpec has one of SUM, COUNT, MAX, MIN, AVG; the names are
    those of the [case] labels of aggregator.c. *)
Inductive compute_type : Type := SUM | CNT | MAX | MIN | AVG.

(** Modelled from the spec: [struct _aggr_computes] of aggregator.h,
    which is not among the sources: a kind and an output name.  The
    [next] pointers make the list that [computes] holds. *)
Record aggr_computes : Type := mk_computes
  { type : compute_type
  ; metric : string }.

(** Modelled from the spec: the struct [aggregator] of aggregator.h,
    which is not among the sources.  The specification's Aggregator has
    an interval, an expiry, the ring of buckets, the ingestion lock,
    the statistics and the three counters.  [interval] and [expire]
    take the [unsigned int] parameters of [aggregator_new];
    [bucketcnt] is compared with the [int] variables [i] and [slot];
    the counters are summed into [size_t] totals.  The lock has no
    part in a sequential run, and the [next] pointers make the list
    [aggregators]. *)
Record aggregator : Type := mk_aggregator
  { interval : Z      (* unsigned int *)
  ; expire : Z        (* unsigned int *)
  ; bucketcnt : Z     (* int *)
  ; received : Z      (* size_t *)
  ; sent : Z          (* size_t *)
  ; dropped : Z       (* size_t *)
  ; buckets : list bucket
  ; computes : list aggr_computes }.

Definition set_dropped (s : aggregator) (n : Z) : aggregator :=
  mk_aggregator (interval s) (expire s) (bucketcnt s)
    (received s) (sent s) n (buckets s) (computes s).

Definition set_received (s : aggregator) (n : Z) : aggregator :=
  mk_aggregator (interval s) (expire s) (bucketcnt s)
    n (sent s) (dropped s) (buckets s) (computes s).

Definition set_sent (s : aggregator) (n : Z) : aggregator :=
  mk_aggregator (interval s) (expire s) (bucketcnt s)
    (received s) n (dropped s) (buckets s) (computes s).

Definition set_buckets (s : aggregator) (bs : list bucket) : aggregator :=
  mk_aggregator (interval s) (expire s) (bucketcnt s)
    (received s) (sent s) (dropped s) bs (computes s).

Definition set_computes (s : aggregator) (cs : list aggr_computes)
  : aggregator :=
  mk_aggregator (interval s) (expire s) (bucketcnt s)
    (received s) (sent s) (dropped s) (buckets s) cs.

(** The result of a run: it completes with a value, touches the
    bucket array at an index outside of it, or divides by zero. *)
Inductive run (A : Type) : Type :=
| Ok (a : A)
| OutOfBounds (index : Z)
| DivisionByZero.
Arguments Ok {A} a.
Arguments OutOfBounds {A} index.
Arguments DivisionByZero {A}.

(** [bs[i]] for a C index. *)
Definition at_index (bs : list bucket) (i : Z) : option bucket :=
  if i <? 0 then None else bs !! Z.to_nat i.

(** ** aggregator_new *)

(** [fresh i] is the indeterminate content of the struct that the i-th
    [malloc (sizeof (struct _bucket))] returns; [now] is what [time]
    stores.  Allocation is taken to succeed.  [computes] is not set by
    the constructor: its caller fills it in, see [set_computes]. *)
Definition aggregator_new (fresh : nat -> bucket) (now interval expire : Z)
  : run aggregator :=
  if interval =? 0 then DivisionByZero
  else
    (* now -= ((expire - 1) / interval) * interval; *)
    let now :=
      C.llong (now - C.uint (C.uint (expire - 1) / interval * interval)) in
    (* ret->bucketcnt = expire / interval + 1 + 2; *)
    let bucketcnt := C.int (C.uint (expire / interval + 1 + 2)) in
    let buckets :=
      (fun i : nat =>
         Bucket.mk (C.llong (now + C.uint (Z.of_nat i * interval))) 0
           (Bucket.sum (fresh i)) (Bucket.max (fresh i))
           (Bucket.min (fresh i)))
        <$> seq 0 (Z.to_nat bucketcnt) in
    Ok (mk_aggregator interval expire bucketcnt 0 0 0 buckets []).

(** The process-wide list [aggregators]: a new one goes to its end. *)
Definition register (aggregators : list aggregator) (ret : aggregator)
  : list aggregator :=
  aggregators ++ [ret].

(** ** aggregator_putmetric *)

(** Lines 125-137: the bucket takes one more value. *)
Definition bucket_put (b : bucket) (val : float) : bucket :=
  if Bucket.cnt b =? 0 then
    Bucket.mk (Bucket.start b) 1 val val val
  else
    Bucket.mk (Bucket.start b)
      (C.size_t (Bucket.cnt b + 1))
      (PrimFloat.add (Bucket.sum b) val)
      (if PrimFloat.ltb (Bucket.max b) val then val else Bucket.max b)
      (if PrimFloat.ltb val (Bucket.min b) then val else Bucket.min b).

Definition log_incorrect (metric : string) : string :=
  String.append "aggregator: dropping incorrect metric: " metric.

Definition log_future (metric : string) : string :=
  String.append "aggregator: dropping metric too far in the future: " metric.

(** Lines 107-140, with [val] and [epoch] as lines 104-105 left them.
    The result carries what was written to stderr. *)
Definition putmetric_sample (s : aggregator) (metric : string)
    (val : float) (epoch : Z) : run (aggregator * list string) :=
  match at_index (buckets s) 0 with
  | None => OutOfBounds 0
  | Some b0 =>
      let epoch := C.llong (epoch - Bucket.start b0) in
      if epoch <? 0 then
        Ok (set_dropped s (C.size_t (dropped s + 1)), [])
      else if interval s =? 0 then DivisionByZero
      else
        let slot := C.int (Z.quot epoch (interval s)) in
        if slot >=? bucketcnt s then
          Ok (set_dropped s (C.size_t (dropped s + 1)), [log_future metric])
        else
          match at_index (buckets s) slot with
          | None => OutOfBounds slot
          | Some b =>
              let s := set_received s (C.size_t (received s + 1)) in
              Ok (set_buckets s
                    (<[Z.to_nat slot := bucket_put b val]> (buckets s)), [])
          end
  end.

Section Libc.

(** [atof] is the C library's; the embedding takes it as given. *)
Variable atof : string -> float.

Definition aggregator_putmetric (s : aggregator) (metric : string)
  : run (aggregator * list string) :=
  match strchr metric " " with
  | None => Ok (s, [log_incorrect metric])
  | Some v =>
      match strchr v " " with
      | None => Ok (s, [log_incorrect metric])
      | Some t =>
          let val := atof (next_char v) in
          let epoch := atoll (next_char t) in
          putmetric_sample s metric val epoch
      end
  end.

End Libc.

(** ** aggregator_expire *)

(** What one [fprintf (metricsock, ...)] is called with: the name, the
    value for [%f] or [%zd], and the epoch for [%lld]. *)
Inductive value : Type :=
| Double (f : float)
| Size (n : Z).

Record line : Type := mk_line
  { l_metric : string
  ; l_value : value
  ; l_epoch : Z }.

Definition compute (b : bucket) (t : compute_type) : value :=
  match t with
  | SUM => Double (Bucket.sum b)
  | CNT => Size (Bucket.cnt b)
  | MAX => Double (Bucket.max b)
  | MIN => Double (Bucket.min b)
  | AVG =>
      Double (PrimFloat.div (Bucket.sum b) (C.double_of_size_t (Bucket.cnt b)))
  end.

(** Lines 166-194: one line per entry of [computes], in its order. *)
Definition emit (s : aggregator) (b : bucket) : list line :=
  (fun c =>
     mk_line (metric c) (compute b (type c))
       (C.llong (Bucket.start b + interval s)))
    <$> computes s.

(** Lines 196-202, for [b] the bucket that was [buckets[0]]. *)
Definition rotate (s : aggregator) (b : bucket) : run aggregator :=
  let n := bucketcnt s in
  if n <? 2 then OutOfBounds (n - 2)
  else if Z.of_nat (length (buckets s)) <? n then
    OutOfBounds (Z.of_nat (length (buckets s)))
  else
    (* memmove: slots 0 .. n-2 take what slots 1 .. n-1 hold *)
    let moved :=
      take (Z.to_nat (n - 1)) (drop 1 (buckets s))
        ++ drop (Z.to_nat (n - 1)) (buckets s) in
    match at_index moved (n - 2) with
    | None => OutOfBounds (n - 2)
    | Some last =>
        let b :=
          Bucket.mk (C.llong (Bucket.start last + interval s)) 0
            (Bucket.sum b) (Bucket.max b) (Bucket.min b) in
        Ok (set_buckets (set_sent s (C.size_t (sent s + 1)))
              (<[Z.to_nat (n - 1) := b]> moved))
    end.

(** The test of the inner [while] at line 163. *)
Definition expired (now : Z) (s : aggregator) (b : bucket) : bool :=
  C.llong (Bucket.start b + interval s) <? C.llong (now - expire s).

(** Lines 163-204: the inner [while] for one aggregator, appending to
    what was written to [metricsock].  [None]: the loop is still
    running when the fuel is used up. *)
Fixpoint expire_one (fuel : nat) (now : Z) (s : aggregator) (out : list line)
  : option (run (aggregator * list line)) :=
  match fuel with
  | O => None
  | S fuel =>
      match at_index (buckets s) 0 with
      | None => Some (OutOfBounds 0)
      | Some b =>
          if expired now s b then
            match rotate s b with
            | Ok s' => expire_one fuel now s' (out ++ emit s b)
            | OutOfBounds i => Some (OutOfBounds i)
            | DivisionByZero => Some DivisionByZero
            end
          else Some (Ok (s, out))
      end
  end.

(** Line 162: the [for] over the list of aggregators. *)
Fixpoint expire_all (fuel : nat) (now : Z) (aggregators : list aggregator)
    (out : list line) : option (run (list aggregator * list line)) :=
  match aggregators with
  | [] => Some (Ok ([], out))
  | s :: rest =>
      match expire_one fuel now s out with
      | None => None
      | Some (Ok (s', out)) =>
          match expire_all fuel now rest out with
          | Some (Ok (rest', out)) => Some (Ok (s' :: rest', out))
          | r => r
          end
      | Some (OutOfBounds i) => Some (OutOfBounds i)
      | Some DivisionByZero => Some DivisionByZero
      end
  end.

(** Lines 158-208: the thread's loop, one round per reading of the
    clock while [keep_running] holds; [clock] lists the readings. *)
Fixpoint aggregator_expire (fuel : nat) (clock : list Z)
    (aggregators : list aggregator) (out : list line)
  : option (run (list aggregator * list line)) :=
  match clock with
  | [] => Some (Ok (aggregators, out))
  | now :: clock =>
      match expire_all fuel now aggregators out with
      | Some (Ok (aggregators, out)) =>
          aggregator_expire fuel clock aggregators out
      | r => r
      end
  end.

(** What lines 98-105 leave in [val] and [epoch]; [None] when the test
    of line 98 sends the line away. *)
Definition parse_metric (atof : string -> float) (metric : string)
  : option (float * Z) :=
  match strchr metric " " with
  | None => None
  | Some v =>
      match strchr v " " with
      | None => None
      | Some t => Some (atof (next_char v), atoll (next_char t))
      end
  end.

(** A run of [aggregator_putmetric] over the lines of a connection, in
    their order. *)
Fixpoint putmetrics (atof : string -> float) (s : aggregator)
    (metrics : list string) : run aggregator :=
  match metrics with
  | [] => Ok s
  | metric :: rest =>
      match aggregator_putmetric atof s metric with
      | Ok (s', _) => putmetrics atof s' rest
      | OutOfBounds i => OutOfBounds i
      | DivisionByZero => DivisionByZero
      end
  end.

(** ** Values used to run the code *)

(** Heap content for [aggregator_new]: every fresh struct reads as
    zeroes. *)
Definition zeroed (_ : nat) : bucket :=
  Bucket.mk 0 0 0%float 0%float 0%float.

(** An [atof] for the tokens of the examples: it agrees with the C
    library's on unsigned decimal integers below 2^53. *)
Definition atof_integral (s : string) : float :=
  PrimFloat.of_uint63 (Uint63.of_Z (digits 0 (skip_space s))).

Definition text_line (s : string) : string := String.append s nl.

(** The five statistics, under the names a rule for [foo] would give
    them. *)
Definition example_computes : list aggr_computes :=
  [ mk_computes SUM "foo.sum"; mk_computes CNT "foo.count";
    mk_computes MAX "foo.max"; mk_computes MIN "foo.min";
    mk_computes AVG "foo.avg" ].

(** The aggregator that [aggregator_new (10, 60)] builds when the clock
    reads 1400000000, with the five statistics asked for. *)
Definition example_ring : aggregator :=
  mk_aggregator 10 60 9 0 0 0
    ((fun i : nat =>
        Bucket.mk (1399999950 + 10 * Z.of_nat i) 0 0%float 0%float 0%float)
       <$> seq 0 9)
    example_computes.

(** Lines 165-203: the body of the inner [while], which closes the
    window of [buckets[0]]. *)
Definition close_window (s : aggregator) (out : list line)
  : run (aggregator * list line) :=
  match at_index (buckets s) 0 with
  | None => OutOfBounds 0
  | Some b =>
      match rotate s b with
      | Ok s' => Ok (s', out ++ emit s b)
      | OutOfBounds i => OutOfBounds i
      | DivisionByZero => DivisionByZero
      end
  end.

Fixpoint close_windows (k : nat) (s : aggregator) (out : list line)
  : run (aggregator * list line) :=
  match k with
  | O => Ok (s, out)
  | S k =>
      match close_window s out with
      | Ok (s', out) => close_windows k s' out
      | r => r
      end
  end.

(** ** The ring *)

(** Consecutive buckets start one interval apart. *)
Definition aligned (intv : Z) (bs : list bucket) : Prop :=
  forall (i : nat) (x y : Z),
    (Bucket.start <$> bs) !! i = Some x ->
    (Bucket.start <$> bs) !! S i = Some y ->
    y = x + intv.

(** The aggregators that the code builds: the two periods are nonzero
    [unsigned int] values, [bucketcnt] is what line 69 made it and the
    length of the array, and the buckets are aligned. *)
Record ring (s : aggregator) : Prop := mk_ring
  { ring_interval : 0 < interval s < 2 ^ 32
  ; ring_expire : 0 <= expire s < 2 ^ 32
  ; ring_bucketcnt : bucketcnt s = expire s / interval s + 3
  ; ring_int : bucketcnt s < 2 ^ 31
  ; ring_length : Z.of_nat (length (buckets s)) = bucketcnt s
  ; ring_aligned : aligned (interval s) (buckets s) }.

(** The line carries [val] and an epoch in the window of [buckets[k]]. *)
Definition in_window (atof : string -> float) (s : aggregator) (k : nat)
    (metric : string) (val : float) : Prop :=
  exists (epoch : Z) (b : bucket),
    parse_metric atof metric = Some (val, epoch) /\
    buckets s !! k = Some b /\
    Bucket.start b <= epoch < Bucket.start b + interval s.

(** Times that leave room for the arithmetic on [long long]. *)
Definition in_range (t : Z) : Prop := - 2 ^ 62 <= t <= 2 ^ 62.

(** The ring length in the words of the specification:
    ceil (expiry / interval) + 3. *)
Definition spec_ring_length (interval expire : Z) : Z :=
  - ((- expire) / interval) + 3.

(** ** Statistics of a list of values *)

(** The sum in [double], in the order of arrival. *)
Definition double_sum (first : float) (rest : list float) : float :=
  foldl PrimFloat.add first rest.

(** [m] is one of the values and none is above it; [<=] decides the
    order of the values that are numbers. *)
Definition is_maximum (m : float) (vs : list float) : Prop :=
  m ∈ vs /\
  (forall v, v ∈ vs -> PrimFloat.ltb m v = false) /\
  ((forall v, v ∈ vs -> PrimFloat.is_nan v = false) ->
   forall v, v ∈ vs -> PrimFloat.leb v m = true).

Definition is_minimum (m : float) (vs : list float) : Prop :=
  m ∈ vs /\
  (forall v, v ∈ vs -> PrimFloat.ltb v m = false) /\
  ((forall v, v ∈ vs -> PrimFloat.is_nan v = false) ->
   forall v, v ∈ vs -> PrimFloat.leb m v = true).

(** What [emit] is to write for a bucket with these statistics. *)
Definition report (name : aggr_computes) (count : Z) (total hi lo : float)
    (epoch : Z) : line :=
  mk_line (metric name)
    match type name with
    | SUM => Double total
    | CNT => Size count
    | MAX => Double hi
    | MIN => Double lo
    | AVG => Double (PrimFloat.div total (C.double_of_size_t count))
    end
    epoch.

(** The lines written by a run of the sweeper. *)
Definition written {A : Type} (r : option (run (A * list line)))
  : option (list line) :=
  match r with
  | Some (Ok (_, out)) => Some out
  | _ => None
  end.

(** ** The registry and its totals *)

(** [aggregator_hasaggregators]: [aggregators != NULL]. *)
Definition aggregator_hasaggregators (aggregators : list aggregator) : bool :=
  match aggregators with
  | [] => false
  | _ :: _ => true
  end.

(** The three loops of lines 278, 293 and 310, which add a counter of
    every aggregator in a [size_t]. *)
Definition aggregator_get_received (aggregators : list aggregator) : Z :=
  foldl (fun tot a => C.size_t (tot + received a)) 0 aggregators.

Definition aggregator_get_sent (aggregators : list aggregator) : Z :=
  foldl (fun tot a => C.size_t (tot + sent a)) 0 aggregators.

Definition aggregator_get_dropped (aggregators : list aggregator) : Z :=
  foldl (fun tot a => C.size_t (tot + dropped a)) 0 aggregators.

(** ** aggregator_start *)

(** What the four calls of [aggregator_start] return: [pipe],
    [dispatch_addconnection], [fdopen] and [pthread_create]. *)
Record start_calls : Type := mk_start_calls
  { pipe_ok : bool
  ; addconnection_ok : bool
  ; fdopen_ok : bool
  ; pthread_create_ok : bool }.

(** What a run of [aggregator_start] does to the process. *)
Inductive start_event : Type :=
| Logged (msg : string)
| PipeCreated
| ReadEndRegistered
| WriteEndOpened
| ThreadStarted
| ReadEndClosed
| WriteEndClosed.

Definition aggregator_start (calls : start_calls) : Z * list start_event :=
  if negb (pipe_ok calls) then
    (0, [Logged (text_line "aggregator: failed to create pipe")])
  else if negb (addconnection_ok calls) then
    (0, [PipeCreated;
         Logged (text_line "aggregator: unable a add connection");
         ReadEndClosed; WriteEndClosed])
  else if negb (fdopen_ok calls) then
    (0, [PipeCreated; ReadEndRegistered;
         Logged
           (text_line "aggregator: failed to open pipe socket for writing");
         ReadEndClosed; WriteEndClosed])
  else if negb (pthread_create_ok calls) then
    (0, [PipeCreated; ReadEndRegistered; WriteEndOpened;
         Logged (text_line "failed to start aggregator!");
         ReadEndClosed; WriteEndClosed])
  else
    (1, [PipeCreated; ReadEndRegistered; WriteEndOpened; ThreadStarted]).

Definition is_close (e : start_event) : bool :=
  match e with
  | ReadEndClosed | WriteEndClosed => true
  | _ => false
  end.

(** ** Measures of a run *)

(** The samples that the buckets hold. *)
Definition stored (bs : list bucket) : Z :=
  foldr (fun b n => Bucket.cnt b + n) 0 bs.

(** The lines that the test of line 98 sends away. *)
Fixpoint rejected (atof : string -> float) (metrics : list string) : Z :=
  match metrics with
  | [] => 0
  | metric :: rest =>
      match parse_metric atof metric with
      | None => 1 + rejected atof rest
      | Some _ => rejected atof rest
      end
  end.

(** The windows of a ring from [b0] on that have closed at [now]: the
    i with [start b0 + (i + 1) * interval < now - expire]. *)
Definition windows_due (now : Z) (s : aggregator) (b0 : bucket) : Z :=
  Z.max 0 ((now - expire s - Bucket.start b0 - 1) / interval s).

(** Name and epoch of a written line. *)
Definition heading (l : line) : string * Z := (l_metric l, l_epoch l).

(** What the sweeper leaves as it is in an aggregator. *)
Definition same_frame (s s' : aggregator) : Prop :=
  received s' = received s /\ dropped s' = dropped s /\
  interval s' = interval s /\ expire s' = expire s /\
  bucketcnt s' = bucketcnt s /\ computes s' = computes s /\
  length (buckets s') = length (buckets s).

(** The sum of a counter over the aggregators, in the integers. *)
Definition total (f : aggregator -> Z) (aggregators : list aggregator) : Z :=
  foldr (fun a n => f a + n) 0 aggregators.

(** The aggregators of a list are rings that start in range. *)
Definition rings (aggregators : list aggregator) : Prop :=
  Forall (fun s => ring s /\
                   forall b0, buckets s !! 0%nat = Some b0 ->
                              in_range (Bucket.start b0))
         aggregators.


Ltac sf_cases :=
  repeat match goal with
    | b : bool |- _ => destruct b
    end;
  simpl; try congruence;
  repeat match goal with
    | |- context [Z.compare ?x ?y] =>
        destruct (Z.compare_spec x y); simpl; try congruence; try lia
    | H : context [Z.compare ?x ?y] |- _ =>
        destruct (Z.compare_spec x y); simpl in *; try congruence; try lia
    end;
  repeat match goal with
    | |- context [Pos.compare_cont Eq ?x ?y] =>
        change (Pos.compare_cont Eq x y) with (Pos.compare x y);
        destruct (Pos.compare_spec x y); simpl; try congruence; try lia
    | H : context [Pos.compare_cont Eq ?x ?y] |- _ =>
        change (Pos.compare_cont Eq x y) with (Pos.compare x y) in H;
        destruct (Pos.compare_spec x y); simpl in *; try congruence; try lia
    end.

(** * Properties *)

(** ** Machine integers *)

Lemma llong_small (z : Z) :
  C.LLONG_MIN <= z <= C.LLONG_MAX -> C.llong z = z.
Proof.
  unfold C.llong, C.wrap_signed, C.LLONG_MIN, C.LLONG_MAX. intros H.
  rewrite Z.mod_small; lia.
Qed.

Lemma uint_small (z : Z) : 0 <= z < 2 ^ 32 -> C.uint z = z.
Proof. intros H. unfold C.uint, C.wrap_unsigned. apply Z.mod_small; lia. Qed.

Lemma int_small (z : Z) : - 2 ^ 31 <= z < 2 ^ 31 -> C.int z = z.
Proof.
  unfold C.int, C.wrap_signed. intros H. rewrite Z.mod_small; lia.
Qed.

Lemma size_t_small (z : Z) : 0 <= z < 2 ^ 64 -> C.size_t z = z.
Proof. intros H. unfold C.size_t, C.wrap_unsigned. apply Z.mod_small; lia. Qed.

(** ** Parsing *)

Lemma strchr_points_at (s : string) (c : ascii) (v : string) :
  strchr s c = Some v -> exists r, v = String c r.
Proof.
  induction s as [|a r IH]; simpl; [discriminate|].
  destruct (Ascii.eqb a c) eqn:E; [|exact IH].
  intros [= <-]. apply Ascii.eqb_eq in E. subst a. eauto.
Qed.

(** Searching again from where the character was found finds it there:
    [strchr (v, ' ')] is [v]. *)
Lemma strchr_again (s : string) (c : ascii) (v : string) :
  strchr s c = Some v -> strchr v c = Some v.
Proof.
  intros H. destruct (strchr_points_at _ _ _ H) as [r ->].
  simpl. now rewrite Ascii.eqb_refl.
Qed.

Lemma putmetric_parse atof (s : aggregator) (metric : string) :
  aggregator_putmetric atof s metric =
  match parse_metric atof metric with
  | None => Ok (s, [log_incorrect metric])
  | Some (val, epoch) => putmetric_sample s metric val epoch
  end.
Proof.
  unfold aggregator_putmetric, parse_metric.
  destruct (strchr metric " ") as [v|]; [|reflexivity].
  destruct (strchr v " "); reflexivity.
Qed.

(** Both [val] and [epoch] are read at the character after the first
    space. *)
Lemma parse_metric_first_space atof (metric v : string) :
  strchr metric " " = Some v ->
  parse_metric atof metric = Some (atof (next_char v), atoll (next_char v)).
Proof.
  intros H. unfold parse_metric. rewrite H.
  now rewrite (strchr_again _ _ _ H).
Qed.

Lemma parse_metric_no_space atof (metric : string) :
  strchr metric " " = None -> parse_metric atof metric = None.
Proof. intros H. unfold parse_metric. now rewrite H. Qed.

(** ** The order of [double] *)

Lemma SFltb_irrefl (a : spec_float) : SFltb a a = false.
Proof.
  unfold SFltb. destruct a as [s|s| |s m e]; simpl;
    try (destruct s; reflexivity); try reflexivity.
  destruct s; rewrite Z.compare_refl;
    change (Pos.compare_cont Eq m m) with (Pos.compare m m);
    rewrite Pos.compare_refl; reflexivity.
Qed.

Lemma SFltb_raise (a b c : spec_float) :
  SFltb a b = true -> SFltb a c = false -> SFltb b c = false.
Proof.
  unfold SFltb.
  destruct a as [sa|sa| |sa ma ea], b as [sb|sb| |sb mb eb],
    c as [sc|sc| |sc mc ec]; simpl; try congruence; sf_cases.
Qed.

Lemma SFltb_lower (a b c : spec_float) :
  SFltb b a = true -> SFltb c a = false -> SFltb c b = false.
Proof.
  unfold SFltb.
  destruct a as [sa|sa| |sa ma ea], b as [sb|sb| |sb mb eb],
    c as [sc|sc| |sc mc ec]; simpl; try congruence; sf_cases.
Qed.

Lemma SFleb_of_not_ltb (a b : spec_float) :
  SFeqb a a = true -> SFeqb b b = true ->
  SFltb a b = false -> SFleb b a = true.
Proof.
  unfold SFltb, SFleb, SFeqb.
  destruct a as [sa|sa| |sa ma ea], b as [sb|sb| |sb mb eb];
    simpl; try congruence; sf_cases.
Qed.

Lemma double_ltb_irrefl (a : float) : PrimFloat.ltb a a = false.
Proof. rewrite FloatAxioms.ltb_spec. apply SFltb_irrefl. Qed.

(** [if (max < val) max = val] keeps every earlier value below. *)
Lemma double_ltb_raise (a b c : float) :
  PrimFloat.ltb a b = true -> PrimFloat.ltb a c = false ->
  PrimFloat.ltb b c = false.
Proof. rewrite !FloatAxioms.ltb_spec. apply SFltb_raise. Qed.

(** [if (min > val) min = val] keeps every earlier value above. *)
Lemma double_ltb_lower (a b c : float) :
  PrimFloat.ltb b a = true -> PrimFloat.ltb c a = false ->
  PrimFloat.ltb c b = false.
Proof. rewrite !FloatAxioms.ltb_spec. apply SFltb_lower. Qed.

Lemma double_leb_of_not_ltb (a b : float) :
  PrimFloat.is_nan a = false -> PrimFloat.is_nan b = false ->
  PrimFloat.ltb a b = false -> PrimFloat.leb b a = true.
Proof.
  unfold PrimFloat.is_nan. rewrite !FloatAxioms.eqb_spec, FloatAxioms.ltb_spec, FloatAxioms.leb_spec.
  intros Ha Hb. apply SFleb_of_not_ltb.
  - now destruct (SFeqb (Prim2SF a) (Prim2SF a)).
  - now destruct (SFeqb (Prim2SF b) (Prim2SF b)).
Qed.

(** ** One bucket *)

(** What the fields of a bucket are after the values [first :: rest]
    went into it. *)
Lemma bucket_put_first (b : bucket) (v : float) :
  Bucket.cnt b = 0 -> bucket_put b v = Bucket.mk (Bucket.start b) 1 v v v.
Proof. intros H. unfold bucket_put. now rewrite H. Qed.

Lemma bucket_put_start (b : bucket) (v : float) :
  Bucket.start (bucket_put b v) = Bucket.start b.
Proof. unfold bucket_put. now destruct (Bucket.cnt b =? 0). Qed.

Lemma foldl_bucket_put_start (vs : list float) (b : bucket) :
  Bucket.start (foldl bucket_put b vs) = Bucket.start b.
Proof.
  revert b. induction vs as [|v vs IH]; intros b; simpl; [reflexivity|].
  now rewrite IH, bucket_put_start.
Qed.

Lemma bucket_put_counts (vs : list float) (b : bucket) :
  0 < Bucket.cnt b ->
  Bucket.cnt b + Z.of_nat (length vs) < 2 ^ 64 ->
  Bucket.cnt (foldl bucket_put b vs) = Bucket.cnt b + Z.of_nat (length vs).
Proof.
  revert b. induction vs as [|v vs IH]; intros b Hpos Hlen; simpl in *.
  - lia.
  - assert (Hb : Bucket.cnt (bucket_put b v) = Bucket.cnt b + 1).
    { unfold bucket_put. destruct (Z.eqb_spec (Bucket.cnt b) 0); [lia|].
      simpl. apply size_t_small. lia. }
    rewrite IH; rewrite Hb; lia.
Qed.

Lemma bucket_put_sums (vs : list float) (b : bucket) :
  0 < Bucket.cnt b ->
  Bucket.cnt b + Z.of_nat (length vs) < 2 ^ 64 ->
  Bucket.sum (foldl bucket_put b vs) = double_sum (Bucket.sum b) vs.
Proof.
  unfold double_sum.
  revert b. induction vs as [|v vs IH]; intros b Hpos Hlen; simpl in *.
  - reflexivity.
  - assert (Hb : Bucket.cnt (bucket_put b v) = Bucket.cnt b + 1
                 /\ Bucket.sum (bucket_put b v)
                    = PrimFloat.add (Bucket.sum b) v).
    { unfold bucket_put. destruct (Z.eqb_spec (Bucket.cnt b) 0); [lia|].
      simpl. split; [apply size_t_small; lia|reflexivity]. }
    destruct Hb as [Hc Hs]. rewrite IH; rewrite ?Hc, ?Hs; try lia.
    reflexivity.
Qed.

(** The running maximum: it is one of the values seen, and none of
    them is above it. *)
Lemma bucket_put_max (vs seen : list float) (b : bucket) :
  0 < Bucket.cnt b ->
  Bucket.cnt b + Z.of_nat (length vs) < 2 ^ 64 ->
  Bucket.max b ∈ seen ->
  (forall v, v ∈ seen -> PrimFloat.ltb (Bucket.max b) v = false) ->
  Bucket.max (foldl bucket_put b vs) ∈ seen ++ vs /\
  (forall v, v ∈ seen ++ vs ->
             PrimFloat.ltb (Bucket.max (foldl bucket_put b vs)) v = false).
Proof.
  revert seen b.
  induction vs as [|v vs IH]; intros seen b Hpos Hlen Hin Hub; simpl in *.
  - rewrite app_nil_r. auto.
  - replace (seen ++ v :: vs) with ((seen ++ [v]) ++ vs)
      by now rewrite <- app_assoc.
    assert (Hc : Bucket.cnt (bucket_put b v) = Bucket.cnt b + 1).
    { unfold bucket_put. destruct (Z.eqb_spec (Bucket.cnt b) 0); [lia|].
      simpl. apply size_t_small. lia. }
    assert (Hm : Bucket.max (bucket_put b v)
                 = if PrimFloat.ltb (Bucket.max b) v then v else Bucket.max b).
    { unfold bucket_put. destruct (Z.eqb_spec (Bucket.cnt b) 0); [lia|].
      reflexivity. }
    apply IH; rewrite ?Hc, ?Hm; try lia.
    + apply elem_of_app.
      destruct (PrimFloat.ltb (Bucket.max b) v); [right|now left].
      now apply list_elem_of_singleton.
    + intros w Hw. apply elem_of_app in Hw as [Hw|Hw].
      * destruct (PrimFloat.ltb (Bucket.max b) v) eqn:E; [|now apply Hub].
        eapply double_ltb_raise; [exact E|now apply Hub].
      * apply list_elem_of_singleton in Hw as ->.
        destruct (PrimFloat.ltb (Bucket.max b) v) eqn:E; [|exact E].
        apply double_ltb_irrefl.
Qed.

Lemma bucket_put_min (vs seen : list float) (b : bucket) :
  0 < Bucket.cnt b ->
  Bucket.cnt b + Z.of_nat (length vs) < 2 ^ 64 ->
  Bucket.min b ∈ seen ->
  (forall v, v ∈ seen -> PrimFloat.ltb v (Bucket.min b) = false) ->
  Bucket.min (foldl bucket_put b vs) ∈ seen ++ vs /\
  (forall v, v ∈ seen ++ vs ->
             PrimFloat.ltb v (Bucket.min (foldl bucket_put b vs)) = false).
Proof.
  revert seen b.
  induction vs as [|v vs IH]; intros seen b Hpos Hlen Hin Hlb; simpl in *.
  - rewrite app_nil_r. auto.
  - replace (seen ++ v :: vs) with ((seen ++ [v]) ++ vs)
      by now rewrite <- app_assoc.
    assert (Hc : Bucket.cnt (bucket_put b v) = Bucket.cnt b + 1).
    { unfold bucket_put. destruct (Z.eqb_spec (Bucket.cnt b) 0); [lia|].
      simpl. apply size_t_small. lia. }
    assert (Hm : Bucket.min (bucket_put b v)
                 = if PrimFloat.ltb v (Bucket.min b) then v else Bucket.min b).
    { unfold bucket_put. destruct (Z.eqb_spec (Bucket.cnt b) 0); [lia|].
      reflexivity. }
    apply IH; rewrite ?Hc, ?Hm; try lia.
    + apply elem_of_app.
      destruct (PrimFloat.ltb v (Bucket.min b)); [right|now left].
      now apply list_elem_of_singleton.
    + intros w Hw. apply elem_of_app in Hw as [Hw|Hw].
      * destruct (PrimFloat.ltb v (Bucket.min b)) eqn:E; [|now apply Hlb].
        eapply double_ltb_lower; [exact E|now apply Hlb].
      * apply list_elem_of_singleton in Hw as ->.
        destruct (PrimFloat.ltb v (Bucket.min b)) eqn:E; [|exact E].
        apply double_ltb_irrefl.
Qed.

(** The statistics of an empty bucket that took [v :: vs]. *)
Lemma bucket_put_statistics (b : bucket) (v : float) (vs : list float) :
  Bucket.cnt b = 0 ->
  Z.of_nat (length (v :: vs)) < 2 ^ 64 ->
  let b' := foldl bucket_put b (v :: vs) in
  Bucket.start b' = Bucket.start b /\
  Bucket.cnt b' = Z.of_nat (length (v :: vs)) /\
  Bucket.sum b' = double_sum v vs /\
  is_maximum (Bucket.max b') (v :: vs) /\
  is_minimum (Bucket.min b') (v :: vs).
Proof.
  intros Hempty Hlen b'. subst b'. simpl foldl.
  rewrite (bucket_put_first _ _ Hempty).
  set (b1 := Bucket.mk (Bucket.start b) 1 v v v).
  change (length (v :: vs)) with (S (length vs)) in *.
  assert (H1 : Bucket.cnt b1 = 1) by reflexivity.
  split; [now rewrite foldl_bucket_put_start|].
  split; [rewrite bucket_put_counts; rewrite ?H1; lia|].
  split; [rewrite bucket_put_sums; rewrite ?H1; [reflexivity|lia..]|].
  assert (Hmax := bucket_put_max vs [v] b1).
  assert (Hmin := bucket_put_min vs [v] b1).
  rewrite H1 in Hmax, Hmin. simpl in Hmax, Hmin.
  destruct Hmax as [Hmax1 Hmax2]; [lia|lia|now apply list_elem_of_singleton| |].
  { intros w Hw. apply list_elem_of_singleton in Hw as ->.
    apply double_ltb_irrefl. }
  destruct Hmin as [Hmin1 Hmin2]; [lia|lia|now apply list_elem_of_singleton| |].
  { intros w Hw. apply list_elem_of_singleton in Hw as ->.
    apply double_ltb_irrefl. }
  split.
  - split; [exact Hmax1|]. split; [exact Hmax2|].
    intros Hnan w Hw. apply double_leb_of_not_ltb; auto.
  - split; [exact Hmin1|]. split; [exact Hmin2|].
    intros Hnan w Hw. apply double_leb_of_not_ltb; auto.
Qed.

(** ** The ring *)

Lemma at_index_nat (bs : list bucket) (i : nat) :
  at_index bs (Z.of_nat i) = bs !! i.
Proof.
  unfold at_index. destruct (Z.ltb_spec (Z.of_nat i) 0); [lia|].
  now rewrite Nat2Z.id.
Qed.

Lemma aligned_starts (intv : Z) (bs : list bucket) (b0 : bucket) :
  aligned intv bs -> bs !! 0%nat = Some b0 ->
  forall (i : nat) (b : bucket),
    bs !! i = Some b ->
    Bucket.start b = Bucket.start b0 + Z.of_nat i * intv.
Proof.
  intros Hal H0 i. induction i as [|i IH]; intros b Hb.
  - rewrite H0 in Hb. injection Hb as <-. lia.
  - destruct (lookup_lt_is_Some_2 bs i) as [x Hx].
    { apply lookup_lt_Some in Hb. lia. }
    specialize (IH x Hx).
    rewrite (Hal i (Bucket.start x) (Bucket.start b)).
    + lia.
    + now rewrite list_lookup_fmap, Hx.
    + now rewrite list_lookup_fmap, Hb.
Qed.

Lemma ring_head (s : aggregator) :
  ring s -> exists b0, buckets s !! 0%nat = Some b0.
Proof.
  intros R. apply lookup_lt_is_Some_2.
  pose proof (ring_length s R). pose proof (ring_bucketcnt s R).
  pose proof (ring_interval s R). pose proof (ring_expire s R).
  assert (0 <= expire s / interval s) by (apply Z.div_pos; lia).
  lia.
Qed.

(** The ring covers at most [expire + 3 * interval] seconds. *)
Lemma ring_span (s : aggregator) :
  ring s -> bucketcnt s * interval s <= expire s + 3 * interval s.
Proof.
  intros R. rewrite (ring_bucketcnt s R).
  pose proof (ring_interval s R).
  pose proof (Z.mul_div_le (expire s) (interval s)). lia.
Qed.

(** The buckets are sorted by their start, the oldest first. *)
Lemma ring_sorted (s : aggregator) (i j : nat) (x y : bucket) :
  ring s -> buckets s !! i = Some x -> buckets s !! j = Some y ->
  (i < j)%nat -> Bucket.start x < Bucket.start y.
Proof.
  intros R Hx Hy Hij. destruct (ring_head s R) as [b0 H0].
  rewrite (aligned_starts _ _ _ (ring_aligned s R) H0 i x Hx).
  rewrite (aligned_starts _ _ _ (ring_aligned s R) H0 j y Hy).
  pose proof (ring_interval s R). nia.
Qed.

(** A sample in the window of [buckets[k]] is stored there. *)
Lemma putmetric_sample_stored (s : aggregator) (metric : string)
    (val : float) (epoch : Z) (k : nat) (b : bucket) :
  ring s -> buckets s !! k = Some b ->
  Bucket.start b <= epoch < Bucket.start b + interval s ->
  putmetric_sample s metric val epoch =
  Ok (set_buckets (set_received s (C.size_t (received s + 1)))
        (<[k := bucket_put b val]> (buckets s)), []).
Proof.
  intros R Hb Hwin. destruct (ring_head s R) as [b0 H0].
  pose proof (ring_interval s R) as Hi. pose proof (ring_expire s R) as He.
  pose proof (ring_span s R) as Hspan. pose proof (ring_int s R) as Hint.
  pose proof (ring_length s R) as Hlen.
  pose proof (lookup_lt_Some _ _ _ Hb) as Hk.
  pose proof (aligned_starts _ _ _ (ring_aligned s R) H0 k b Hb) as Hs.
  unfold putmetric_sample.
  change 0 with (Z.of_nat 0) at 1. rewrite at_index_nat, H0.
  assert (Hoff : Z.of_nat k * interval s <= epoch - Bucket.start b0
                 < (Z.of_nat k + 1) * interval s) by lia.
  assert (Hk' : (Z.of_nat k + 1) * interval s <= bucketcnt s * interval s)
    by nia.
  rewrite llong_small by (unfold C.LLONG_MIN, C.LLONG_MAX; lia).
  destruct (Z.ltb_spec (epoch - Bucket.start b0) 0); [nia|].
  destruct (Z.eqb_spec (interval s) 0); [lia|].
  assert (Hq : Z.quot (epoch - Bucket.start b0) (interval s) = Z.of_nat k).
  { rewrite Z.quot_div_nonneg by lia. symmetry.
    apply Z.div_unique with (r := epoch - Bucket.start b0
                                  - Z.of_nat k * interval s); lia. }
  rewrite Hq, int_small by lia.
  destruct (Z.geb_spec (Z.of_nat k) (bucketcnt s)); [lia|].
  now rewrite at_index_nat, Hb, Nat2Z.id.
Qed.

Lemma in_window_put atof (s : aggregator) (k : nat) (b : bucket)
    (metric : string) (val : float) :
  ring s -> buckets s !! k = Some b -> in_window atof s k metric val ->
  aggregator_putmetric atof s metric =
  Ok (set_buckets (set_received s (C.size_t (received s + 1)))
        (<[k := bucket_put b val]> (buckets s)), []).
Proof.
  intros R Hb (epoch & b' & Hparse & Hb' & Hwin).
  rewrite Hb in Hb'. injection Hb' as <-.
  rewrite putmetric_parse, Hparse.
  now apply putmetric_sample_stored.
Qed.

Lemma aligned_insert (intv : Z) (bs : list bucket) (k : nat) (b b' : bucket) :
  bs !! k = Some b -> Bucket.start b' = Bucket.start b ->
  aligned intv bs -> aligned intv (<[k := b']> bs).
Proof.
  intros Hb Hs Hal. unfold aligned.
  rewrite list_fmap_insert, Hs.
  rewrite list_insert_id; [exact Hal|].
  now rewrite list_lookup_fmap, Hb.
Qed.

(** Storing a value keeps the ring. *)
Lemma ring_put (s : aggregator) (k : nat) (b : bucket) (val : float) (r : Z) :
  ring s -> buckets s !! k = Some b ->
  ring (set_buckets (set_received s r)
          (<[k := bucket_put b val]> (buckets s))).
Proof.
  intros R Hb. destruct R. constructor; simpl; auto.
  - now rewrite length_insert.
  - eapply aligned_insert; eauto. apply bucket_put_start.
Qed.

(** ** Samples of one window *)

Lemma size_t_incr (r n : Z) :
  C.size_t (C.size_t (r + 1) + n) = C.size_t (r + (1 + n)).
Proof.
  unfold C.size_t, C.wrap_unsigned.
  rewrite Z.add_mod_idemp_l by lia. f_equal. lia.
Qed.

Lemma in_window_after_put atof (s : aggregator) (k : nat) (b : bucket)
    (v : float) (r : Z) (metric : string) (val : float) :
  buckets s !! k = Some b ->
  in_window atof s k metric val ->
  in_window atof
    (set_buckets (set_received s r) (<[k := bucket_put b v]> (buckets s)))
    k metric val.
Proof.
  intros Hb (epoch & b' & Hparse & Hb' & Hwin).
  rewrite Hb in Hb'. injection Hb' as <-.
  exists epoch, (bucket_put b v). split; [exact Hparse|]. simpl. split.
  - apply list_lookup_insert_eq. now apply lookup_lt_Some in Hb.
  - now rewrite bucket_put_start.
Qed.

Lemma putmetrics_in_window atof (k : nat) (metrics : list string)
    (vals : list float) :
  forall (s : aggregator) (b : bucket),
    ring s -> buckets s !! k = Some b ->
    Forall2 (in_window atof s k) metrics vals ->
    exists s',
      putmetrics atof s metrics = Ok s' /\
      buckets s' = <[k := foldl bucket_put b vals]> (buckets s) /\
      received s' =
        match vals with
        | [] => received s
        | _ => C.size_t (received s + Z.of_nat (length vals))
        end /\
      dropped s' = dropped s /\ sent s' = sent s /\
      interval s' = interval s /\ computes s' = computes s.
Proof.
  revert vals. induction metrics as [|metric metrics IH];
    intros vals s b R Hb Hall.
  - apply Forall2_nil_inv_l in Hall as ->. exists s. simpl.
    now rewrite (list_insert_id _ _ _ Hb).
  - apply Forall2_cons_inv_l in Hall as (v & vs & Hv & Hvs & ->).
    simpl putmetrics. rewrite (in_window_put atof s k b metric v R Hb Hv).
    set (s1 := set_buckets _ _).
    assert (Hb1 : buckets s1 !! k = Some (bucket_put b v)).
    { simpl. apply list_lookup_insert_eq. now apply lookup_lt_Some in Hb. }
    destruct (IH vs s1 (bucket_put b v)) as (s' & Hrun & Hbs & Hrc & Hrest);
      [now apply ring_put|exact Hb1| |].
    { eapply Forall2_impl; [exact Hvs|]. intros m w.
      now apply in_window_after_put. }
    exists s'. split; [exact Hrun|]. split.
    { rewrite Hbs. simpl. now rewrite list_insert_insert_eq. }
    split; [|exact Hrest].
    rewrite Hrc. simpl received. destruct vs as [|w vs'].
    + reflexivity.
    + rewrite size_t_incr. f_equal.
      change (length (v :: w :: vs')) with (S (length (w :: vs'))). lia.
Qed.

Lemma emit_report (s : aggregator) (b : bucket) :
  emit s b =
  (fun c => report c (Bucket.cnt b) (Bucket.sum b) (Bucket.max b)
              (Bucket.min b) (C.llong (Bucket.start b + interval s)))
    <$> computes s.
Proof.
  unfold emit. apply list_fmap_ext. intros _ c _.
  unfold report, compute. now destruct (type c).
Qed.

(** ** Construction *)

Lemma uint_range (z : Z) : 0 <= C.uint z < 2 ^ 32.
Proof. unfold C.uint, C.wrap_unsigned. apply Z.mod_pos_bound. lia. Qed.

Lemma aggregator_new_ring (fresh : nat -> bucket) (now intv expiry : Z) :
  0 < intv -> 0 <= expiry ->
  expiry / intv + 3 < 2 ^ 31 ->
  (expiry / intv + 2) * intv < 2 ^ 32 ->
  in_range now ->
  exists s,
    aggregator_new fresh now intv expiry = Ok s /\
    ring s /\
    interval s = intv /\ expire s = expiry /\
    received s = 0 /\ sent s = 0 /\ dropped s = 0.
Proof.
  intros Hi He Hcnt Hspan Hnow. unfold in_range in Hnow.
  assert (Hq : 0 <= expiry / intv) by (apply Z.div_pos; lia).
  pose proof (Z.mul_div_le expiry intv Hi) as Hle.
  pose proof (Z.mod_pos_bound expiry intv Hi) as Hmod.
  pose proof (Z.div_mod expiry intv ltac:(lia)) as Hdm.
  unfold aggregator_new.
  destruct (Z.eqb_spec intv 0); [lia|].
  replace (expiry / intv + 1 + 2) with (expiry / intv + 3) by lia.
  rewrite (uint_small (expiry / intv + 3)) by lia.
  rewrite (int_small (expiry / intv + 3)) by lia.
  set (back := C.uint (C.uint (expiry - 1) / intv * intv)).
  pose proof (uint_range (C.uint (expiry - 1) / intv * intv)) as Hback.
  fold back in Hback.
  rewrite (llong_small (now - back))
    by (unfold C.LLONG_MIN, C.LLONG_MAX; lia).
  eexists. split; [reflexivity|].
  split; [|repeat split].
  constructor; simpl; try nia.
  - rewrite length_fmap, length_seq. lia.
  - intros i x y Hx Hy.
    rewrite !list_lookup_fmap in Hx, Hy.
    destruct (seq 0 (Z.to_nat (expiry / intv + 3)) !! S i)
      as [j'|] eqn:Ej'; [|discriminate].
    destruct (seq 0 (Z.to_nat (expiry / intv + 3)) !! i)
      as [j|] eqn:Ej; [|discriminate].
    apply lookup_seq in Ej as [-> Hj], Ej' as [-> Hj'].
    simpl in Hx, Hy. injection Hx as <-. injection Hy as <-.
    assert (Z.of_nat (S i) <= expiry / intv + 2) by lia.
    rewrite !uint_small by nia.
    rewrite !llong_small by (unfold C.LLONG_MIN, C.LLONG_MAX; nia).
    lia.
Qed.

Lemma ring_set_computes (s : aggregator) (cs : list aggr_computes) :
  ring s -> ring (set_computes s cs).
Proof. intros R. destruct R. now constructor. Qed.

(** ** Rotation *)

Lemma rotate_tail (s : aggregator) (b : bucket) (rest : list bucket) :
  buckets s = b :: rest ->
  Z.of_nat (length (buckets s)) = bucketcnt s ->
  2 <= bucketcnt s ->
  exists l,
    last rest = Some l /\
    rotate s b =
    Ok (set_buckets (set_sent s (C.size_t (sent s + 1)))
          (rest ++ [Bucket.mk (C.llong (Bucket.start l + interval s)) 0
                      (Bucket.sum b) (Bucket.max b) (Bucket.min b)])).
Proof.
  intros Hbs Hlen Hn. unfold rotate. rewrite Hbs in *.
  change (length (b :: rest)) with (S (length rest)) in Hlen.
  destruct rest as [|x rest0 _] using rev_ind; [simpl in Hlen; lia|].
  exists x. split; [apply last_snoc|].
  assert (Hr0 : length (rest0 ++ [x]) = S (length rest0))
    by (rewrite length_app; simpl; lia).
  assert (Hr : Z.to_nat (bucketcnt s - 1) = length (rest0 ++ [x]))
    by lia.
  destruct (Z.ltb_spec (bucketcnt s) 2); [lia|].
  change (length (b :: rest0 ++ [x])) with (S (length (rest0 ++ [x]))).
  destruct (Z.ltb_spec (Z.of_nat (S (length (rest0 ++ [x])))) (bucketcnt s));
    [lia|].
  rewrite Hr.
  change (drop 1 (b :: rest0 ++ [x])) with (rest0 ++ [x]).
  rewrite take_ge by lia.
  assert (Hd : drop (length (rest0 ++ [x])) (b :: rest0 ++ [x]) = [x]).
  { rewrite Hr0.
    change (drop (S (length rest0)) (b :: rest0 ++ [x]))
      with (drop (length rest0) (rest0 ++ [x])).
    apply drop_app_length. }
  rewrite Hd.
  replace (bucketcnt s - 2) with (Z.of_nat (length rest0)) by lia.
  rewrite at_index_nat.
  rewrite lookup_app_l by lia.
  rewrite list_lookup_middle by reflexivity.
  rewrite insert_app_r_alt by lia.
  now rewrite Nat.sub_diag.
Qed.

Lemma aligned_rotate (intv : Z) (b : bucket) (rest : list bucket)
    (l b' : bucket) :
  aligned intv (b :: rest) -> last rest = Some l ->
  Bucket.start b' = Bucket.start l + intv ->
  aligned intv (rest ++ [b']).
Proof.
  intros Hal Hl Hs i x y. rewrite fmap_app. simpl.
  rewrite last_lookup in Hl.
  intros Hx Hy. destruct (decide (S i < length rest)%nat) as [Hlt|Hge].
  - rewrite lookup_app_l in Hx, Hy by (rewrite length_fmap; lia).
    exact (Hal (S i) x y Hx Hy).
  - assert (Hi : S i = length rest).
    { apply lookup_lt_Some in Hy.
      rewrite length_app, length_fmap in Hy. simpl in Hy. lia. }
    rewrite lookup_app_l in Hx by (rewrite length_fmap; lia).
    rewrite lookup_app_r in Hy by (rewrite length_fmap; lia).
    rewrite length_fmap, Hi, Nat.sub_diag in Hy. injection Hy as <-.
    rewrite <- Hi in Hl. simpl in Hl.
    rewrite list_lookup_fmap, Hl in Hx. injection Hx as <-. exact Hs.
Qed.

(** Rotation of a ring, when the new start fits a [long long]. *)
Lemma ring_rotate (s : aggregator) (b : bucket) :
  ring s -> buckets s !! 0%nat = Some b ->
  (forall l, last (buckets s) = Some l ->
             C.LLONG_MIN <= Bucket.start l + interval s <= C.LLONG_MAX) ->
  exists s' l,
    last (buckets s) = Some l /\
    rotate s b = Ok s' /\
    buckets s' =
      drop 1 (buckets s)
        ++ [Bucket.mk (Bucket.start l + interval s) 0
              (Bucket.sum b) (Bucket.max b) (Bucket.min b)] /\
    ring s' /\
    sent s' = C.size_t (sent s + 1) /\
    received s' = received s /\ dropped s' = dropped s /\
    interval s' = interval s /\ expire s' = expire s /\
    computes s' = computes s.
Proof.
  intros R Hb Hfit.
  destruct (buckets s) as [|b0 rest] eqn:Hbs; [discriminate|].
  injection Hb as ->.
  pose proof (ring_length s R) as Hlen. pose proof (ring_bucketcnt s R) as Hn.
  pose proof (ring_interval s R) as Hi. pose proof (ring_expire s R) as He.
  assert (0 <= expire s / interval s) by (apply Z.div_pos; lia).
  destruct (rotate_tail s b rest Hbs) as (l & Hl & Hrot);
    [exact Hlen|lia|].
  assert (Hlast : last (b :: rest) = Some l) by now rewrite last_cons, Hl.
  exists (set_buckets (set_sent s (C.size_t (sent s + 1)))
            (rest ++ [Bucket.mk (Bucket.start l + interval s) 0
                        (Bucket.sum b) (Bucket.max b) (Bucket.min b)])), l.
  split; [exact Hlast|].
  rewrite Hrot, llong_small by now apply Hfit.
  split; [reflexivity|]. split; [reflexivity|].
  split; [|repeat split].
  destruct R as [R1 R2 R3 R4 R5 R6]. constructor; simpl; auto.
  - rewrite Hbs in R5. rewrite length_app. simpl in *. lia.
  - rewrite Hbs in R6. eapply aligned_rotate; eauto.
Qed.

Lemma emit_same (s s' : aggregator) (b : bucket) :
  interval s' = interval s -> computes s' = computes s ->
  emit s' b = emit s b.
Proof. intros Hi Hc. unfold emit. now rewrite Hi, Hc. Qed.

(** ** The sweeper on one aggregator *)

Lemma expire_one_closes (now : Z) (m : nat) :
  in_range now ->
  forall (s : aggregator) (out : list line) (b0 : bucket),
    ring s -> buckets s !! 0%nat = Some b0 -> in_range (Bucket.start b0) ->
    now - expire s - (Bucket.start b0 + interval s)
      < Z.of_nat m * interval s ->
    exists (closed : list bucket) (s' : aggregator) (b0' : bucket),
      (forall fuel, (length closed < fuel)%nat ->
         expire_one fuel now s out
         = Some (Ok (s', out ++ concat (emit s <$> closed)))) /\
      (forall (i : nat) (b : bucket), closed !! i = Some b ->
         Bucket.start b = Bucket.start b0 + Z.of_nat i * interval s /\
         Bucket.start b + interval s < now - expire s) /\
      ring s' /\
      buckets s' !! 0%nat = Some b0' /\
      Bucket.start b0' =
        Bucket.start b0 + Z.of_nat (length closed) * interval s /\
      ~ Bucket.start b0' + interval s < now - expire s /\
      sent s' =
        match closed with
        | [] => sent s
        | _ => C.size_t (sent s + Z.of_nat (length closed))
        end /\
      received s' = received s /\ dropped s' = dropped s /\
      interval s' = interval s /\ expire s' = expire s /\
      computes s' = computes s.
Proof.
  intros Hnow. unfold in_range in Hnow.
  assert (Hidle : forall (s : aggregator) (out : list line) (b0 : bucket),
    ring s -> buckets s !! 0%nat = Some b0 -> in_range (Bucket.start b0) ->
    now - expire s <= Bucket.start b0 + interval s ->
    forall fuel, (0 < fuel)%nat ->
      expire_one fuel now s out = Some (Ok (s, out))).
  { intros s out b0 R Hb0 Hstart Hnot [|fuel] Hf; [lia|].
    unfold in_range in Hstart.
    pose proof (ring_interval s R). pose proof (ring_expire s R).
    simpl. change 0 with (Z.of_nat 0) at 1. rewrite at_index_nat, Hb0.
    unfold expired.
    rewrite !llong_small by (unfold C.LLONG_MIN, C.LLONG_MAX; lia).
    now destruct (Z.ltb_spec (Bucket.start b0 + interval s)
                    (now - expire s)); [lia|]. }
  induction m as [|m IH]; intros s out b0 R Hb0 Hstart Hm;
    pose proof (ring_interval s R) as Hi; pose proof (ring_expire s R) as He;
    pose proof (ring_span s R) as Hspan;
    destruct (Z.lt_ge_cases (Bucket.start b0 + interval s) (now - expire s))
      as [Hexp|Hnot];
    try lia.
  1,3: exists [], s, b0; split;
    [intros fuel Hf; rewrite app_nil_r; now apply (Hidle s out b0)|];
    split; [intros i b Hi'; discriminate|];
    split; [exact R|]; split; [exact Hb0|]; simpl;
    split; [lia|]; split; [lia|]; repeat split.
  unfold in_range in Hstart.
  pose proof (ring_length s R) as Hlen.
  pose proof (ring_bucketcnt s R) as Hn.
  assert (Hq : 0 <= expire s / interval s) by (apply Z.div_pos; lia).
  destruct (ring_rotate s b0 R Hb0) as
    (s1 & l & Hl & Hrot & Hbs1 & R1 & Hsent & Hrecv & Hdrop & Hi1 & He1 & Hc1).
  { intros l Hl. rewrite last_lookup in Hl.
    pose proof (aligned_starts _ _ _ (ring_aligned s R) Hb0 _ _ Hl) as Hs.
    pose proof (lookup_lt_Some _ _ _ Hl).
    unfold C.LLONG_MIN, C.LLONG_MAX. nia. }
  destruct (lookup_lt_is_Some_2 (buckets s) 1) as [b1 Hb1]; [lia|].
  pose proof (aligned_starts _ _ _ (ring_aligned s R) Hb0 _ _ Hb1) as Hs1.
  assert (Hhead : buckets s1 !! 0%nat = Some b1).
  { rewrite Hbs1, lookup_app_l.
    - now rewrite lookup_drop.
    - rewrite length_drop. lia. }
  destruct (IH s1 (out ++ emit s b0) b1 R1 Hhead)
    as (closed & s' & b0' & Hrun & Hcl & R' & Hb0' & Hs0' & Hstop
        & Hsent' & Hrecv' & Hdrop' & Hi' & He' & Hc');
    [unfold in_range; lia|rewrite Hi1, He1; lia|].
  exists (b0 :: closed), s', b0'. split.
  { intros [|fuel] Hf; [simpl in Hf; lia|]. simpl in Hf. simpl expire_one.
    change 0 with (Z.of_nat 0) at 1. rewrite at_index_nat, Hb0.
    unfold expired.
    rewrite !llong_small by (unfold C.LLONG_MIN, C.LLONG_MAX; lia).
    destruct (Z.ltb_spec (Bucket.start b0 + interval s) (now - expire s));
      [|lia].
    rewrite Hrot, Hrun by lia.
    assert (Hem : emit s1 <$> closed = emit s <$> closed)
      by (apply list_fmap_ext; intros _ b _; now apply emit_same).
    rewrite Hem, <- app_assoc. reflexivity. }
  split.
  { intros [|i] b Hb; simpl in Hb.
    - injection Hb as <-. lia.
    - destruct (Hcl i b Hb) as [Hsb Hexpb].
      rewrite Hi1, He1 in *. lia. }
  split; [exact R'|]. split; [exact Hb0'|].
  rewrite Hi1, He1 in *.
  split; [rewrite Hs0'; simpl length; lia|].
  split; [exact Hstop|].
  split; [|repeat split; congruence].
  rewrite Hsent', Hsent. destruct closed as [|c closed']; [reflexivity|].
  rewrite size_t_incr. f_equal.
  change (length (b0 :: c :: closed')) with (S (length (c :: closed'))).
  lia.
Qed.

Lemma example_ring_new :
  aggregator_new zeroed 1400000000 10 60 = Ok (set_computes example_ring []).
Proof. vm_compute. reflexivity. Qed.

Lemma example_ring_ok : ring example_ring.
Proof.
  destruct (aggregator_new_ring zeroed 1400000000 10 60)
    as (s & Hnew & R & _); try (unfold in_range; lia).
  - vm_compute. reflexivity.
  - vm_compute. reflexivity.
  - rewrite example_ring_new in Hnew. injection Hnew as <-.
    exact (ring_set_computes _ example_computes R).
Qed.

(** Ingestion keeps the ring, whichever way it returns. *)
Lemma ring_putmetric_sample (s s' : aggregator) (metric : string)
    (val : float) (epoch : Z) (log : list string) :
  ring s -> putmetric_sample s metric val epoch = Ok (s', log) -> ring s'.
Proof.
  intros R. unfold putmetric_sample.
  destruct (at_index (buckets s) 0) as [b0|]; [|discriminate].
  destruct (_ <? 0).
  { intros [= <- _]. destruct R. now constructor. }
  destruct (interval s =? 0); [discriminate|].
  set (slot := C.int _).
  destruct (slot >=? bucketcnt s).
  { intros [= <- _]. destruct R. now constructor. }
  unfold at_index.
  destruct (slot <? 0); [discriminate|].
  destruct (buckets s !! Z.to_nat slot) as [b|] eqn:Hb; [|discriminate].
  intros [= <- _]. now apply ring_put.
Qed.

Lemma ring_putmetric atof (s s' : aggregator) (metric : string)
    (log : list string) :
  ring s -> aggregator_putmetric atof s metric = Ok (s', log) -> ring s'.
Proof.
  intros R. rewrite putmetric_parse.
  destruct (parse_metric atof metric) as [[val epoch]|].
  - now apply ring_putmetric_sample.
  - now intros [= <- _].
Qed.

(** ** Counters do not reach the output *)

Lemma rotate_set_dropped (s : aggregator) (b : bucket) (d : Z) :
  rotate (set_dropped s d) b =
  match rotate s b with
  | Ok s' => Ok (set_dropped s' d)
  | r => r
  end.
Proof.
  unfold rotate. simpl.
  destruct (bucketcnt s <? 2); [reflexivity|].
  destruct (_ <? bucketcnt s); [reflexivity|].
  now destruct (at_index _ _).
Qed.

Lemma expire_one_set_dropped (fuel : nat) (now : Z) (d : Z) :
  forall (s : aggregator) (out : list line),
    expire_one fuel now (set_dropped s d) out =
    match expire_one fuel now s out with
    | Some (Ok (s', out')) => Some (Ok (set_dropped s' d, out'))
    | r => r
    end.
Proof.
  induction fuel as [|fuel IH]; intros s out; simpl; [reflexivity|].
  destruct (at_index (buckets s) 0) as [b|]; [|reflexivity].
  change (expired now (set_dropped s d) b) with (expired now s b).
  destruct (expired now s b); [|reflexivity].
  rewrite rotate_set_dropped.
  destruct (rotate s b) as [s1| |]; [|reflexivity..].
  change (emit (set_dropped s d) b) with (emit s b).
  apply IH.
Qed.

Lemma written_set_dropped (fuel : nat) (now : Z) (d : Z) (s : aggregator)
    (out : list line) :
  written (expire_one fuel now (set_dropped s d) out)
  = written (expire_one fuel now s out).
Proof.
  rewrite expire_one_set_dropped.
  now destruct (expire_one fuel now s out) as [[[s' out']| |]|].
Qed.

(** ** Windows that were never written to *)

Lemma close_windows_shift (k : nat) :
  forall (s : aggregator) (out : list line),
    Z.of_nat (length (buckets s)) = bucketcnt s ->
    2 <= bucketcnt s ->
    exists s' out',
      close_windows k s out = Ok (s', out') /\
      Z.of_nat (length (buckets s')) = bucketcnt s' /\
      bucketcnt s' = bucketcnt s /\
      interval s' = interval s /\ computes s' = computes s /\
      forall i : nat,
        (i + k < length (buckets s))%nat ->
        buckets s' !! i = buckets s !! (i + k)%nat.
Proof.
  induction k as [|k IH]; intros s out Hlen Hn.
  - exists s, out. simpl. repeat split; auto.
    intros i _. now rewrite Nat.add_0_r.
  - simpl. unfold close_window.
    destruct (buckets s) as [|b rest] eqn:Hbs; [simpl in Hlen; lia|].
    change 0 with (Z.of_nat 0) at 1. rewrite at_index_nat. simpl.
    destruct (rotate_tail s b rest Hbs) as (l & Hl & Hrot);
      [now rewrite Hbs|exact Hn|].
    rewrite Hrot.
    set (s1 := set_buckets _ _).
    destruct (IH s1 (out ++ emit s b)) as (s' & out' & Hrun & Hlen' & Hn'
                                           & Hi' & Hc' & Hshift).
    { subst s1. simpl. rewrite length_app. simpl length.
      change (length (b :: rest)) with (S (length rest)) in Hlen. lia. }
    { exact Hn. }
    exists s', out'. split; [exact Hrun|].
    split; [exact Hlen'|]. split; [exact Hn'|].
    split; [exact Hi'|]. split; [exact Hc'|].
    intros i Hik. simpl in Hik.
    rewrite Hshift.
    + subst s1. simpl. rewrite lookup_app_l by lia.
      now rewrite Nat.add_succ_r.
    + subst s1. simpl. rewrite length_app. simpl. lia.
Qed.

(** ** The format check and the epoch of a line *)

(** C1 (not met by the code).  The specification has the value of a
    line [<name> <value> <epoch>] read from its second token and the
    epoch from its third.  The code searches the second space from the
    first one, finds the first one again, and reads the epoch from the
    second token as well: for the line [foo 42 1400000000] the epoch
    is 42, and a ring around 1400000000, which would store the sample
    of that time, counts it as too old. *)
Theorem putmetric_epoch_from_value_token (atof : string -> float) :
  let metric := text_line "foo 42 1400000000" in
  atoll (text_line "1400000000") = 1400000000 /\
  parse_metric atof metric = Some (atof (text_line "42 1400000000"), 42) /\
  exists s,
    aggregator_new zeroed 1400000000 10 60 = Ok s /\
    aggregator_putmetric atof s metric = Ok (set_dropped s 1, []) /\
    exists s',
      putmetric_sample s metric (atof (text_line "42 1400000000")) 1400000000
        = Ok (s', []) /\
      received s' = 1 /\ dropped s' = 0 /\
      Bucket.cnt <$> buckets s' !! 5%nat = Some 1.
Proof.
  intros metric. split; [reflexivity|]. split; [reflexivity|].
  eexists. split; [vm_compute; reflexivity|].
  split; [vm_compute; reflexivity|].
  eexists. split; [vm_compute; reflexivity|].
  repeat split.
Qed.

(** C6 (not met by the code).  The specification has a line without
    the value or without the epoch field change no bucket and no
    counter.  A line without any space does leave the state alone, but
    the test for the second space never fails, so a line with a value
    and no epoch goes on to classification: [foo 42] is counted in
    [dropped], and [foo 1400000003] is stored in a bucket and counted
    in [received]. *)
Theorem putmetric_missing_epoch_not_rejected (atof : string -> float) :
  exists s,
    aggregator_new zeroed 1400000000 10 60 = Ok s /\
    aggregator_putmetric atof s (text_line "foo 42")
      = Ok (set_dropped s 1, []) /\
    dropped (set_dropped s 1) <> dropped s /\
    exists s',
      aggregator_putmetric atof s (text_line "foo 1400000003") = Ok (s', []) /\
      received s' = 1 /\ received s = 0 /\
      Bucket.cnt <$> buckets s' !! 5%nat = Some 1 /\
      Bucket.cnt <$> buckets s !! 5%nat = Some 0.
Proof.
  eexists. split; [vm_compute; reflexivity|].
  split; [vm_compute; reflexivity|].
  split; [vm_compute; discriminate|].
  eexists. split; [vm_compute; reflexivity|].
  repeat split.
Qed.

(** The part of C6 that the code does: a line without a space is
    logged and leaves the aggregator as it was. *)
Lemma putmetric_no_space atof (s : aggregator) (metric : string) :
  strchr metric " " = None ->
  aggregator_putmetric atof s metric = Ok (s, [log_incorrect metric]).
Proof.
  intros H. rewrite putmetric_parse.
  now rewrite (parse_metric_no_space _ _ H).
Qed.

(** ** Samples beyond the ring *)

(** A sample at or beyond the end of the ring whose quotient fits an
    [int] is logged and counted in [dropped]; nothing else changes. *)
Lemma putmetric_sample_too_new (s : aggregator) (metric : string)
    (val : float) (epoch : Z) (b0 : bucket) :
  ring s -> buckets s !! 0%nat = Some b0 ->
  0 <= epoch - Bucket.start b0 <= C.LLONG_MAX ->
  bucketcnt s <= (epoch - Bucket.start b0) / interval s < 2 ^ 31 ->
  putmetric_sample s metric val epoch =
  Ok (set_dropped s (C.size_t (dropped s + 1)), [log_future metric]).
Proof.
  intros R Hb0 Hfit Hslot. pose proof (ring_interval s R) as Hi.
  unfold putmetric_sample.
  change 0 with (Z.of_nat 0) at 1. rewrite at_index_nat, Hb0.
  rewrite llong_small by (unfold C.LLONG_MIN; lia).
  destruct (Z.ltb_spec (epoch - Bucket.start b0) 0); [lia|].
  destruct (Z.eqb_spec (interval s) 0); [lia|].
  rewrite Z.quot_div_nonneg by lia.
  assert (0 <= (epoch - Bucket.start b0) / interval s)
    by (apply Z.div_pos; lia).
  rewrite int_small by lia.
  now destruct (Z.geb_spec ((epoch - Bucket.start b0) / interval s)
                  (bucketcnt s)); [|lia].
Qed.


(** C5 (not met by the code).  The specification has a sample whose
    slot, floor((epoch - buckets[0].start) / interval), is at least the
    ring length counted in [dropped], with nothing else changed.  The
    quotient is narrowed to [int] before it is compared: for epoch
    44349672940 on a ring of 9 buckets of 10 seconds that starts at
    1399999950 the quotient is 2^32 + 3, [slot] is 3, and the sample is
    stored in [buckets[3]] and counted in [received]. *)
Theorem putmetric_far_future_stored (atof : string -> float) :
  exists s b0,
    aggregator_new zeroed 1400000000 10 60 = Ok s /\
    buckets s !! 0%nat = Some b0 /\
    (44349672940 - Bucket.start b0) / interval s = 2 ^ 32 + 3 /\
    bucketcnt s = 9 /\
    exists s',
      aggregator_putmetric atof s (text_line "foo 44349672940 44349672940")
        = Ok (s', []) /\
      dropped s' = dropped s /\
      received s' = received s + 1 /\
      Bucket.cnt <$> buckets s !! 3%nat = Some 0 /\
      Bucket.cnt <$> buckets s' !! 3%nat = Some 1.
Proof.
  eexists. eexists. split; [vm_compute; reflexivity|].
  split; [reflexivity|]. split; [reflexivity|]. split; [reflexivity|].
  eexists. split; [vm_compute; reflexivity|].
  repeat split.
Qed.

(** C9 (not met by the code).  Whenever [buckets[slot]] is touched,
    0 <= slot < bucketcnt is to hold, also for epochs whose quotient
    does not fit an [int].  For epoch 1400000000000 (a time in
    milliseconds) on the same ring the quotient 139860000005 narrows to
    -1873920763, which is below [bucketcnt], and line 124 reads
    [buckets[-1873920763]]. *)
Theorem putmetric_slot_out_of_bounds (atof : string -> float) :
  exists s,
    aggregator_new zeroed 1400000000 10 60 = Ok s /\
    parse_metric atof (text_line "foo 1400000000000 1400000000000") <> None /\
    aggregator_putmetric atof s (text_line "foo 1400000000000 1400000000000")
      = OutOfBounds (-1873920763) /\
    ~ (0 <= -1873920763 < bucketcnt s).
Proof.
  eexists. split; [vm_compute; reflexivity|].
  split; [vm_compute; discriminate|].
  split; [vm_compute; reflexivity|].
  vm_compute. intros [H _]. now apply H.
Qed.

(** ** Window statistics *)

(** C2.  The samples that [aggregator_putmetric] stores in one bucket
    that was empty: the bucket counts them, sums their values in
    [double] in the order of arrival, keeps a largest and a smallest of
    them, and what [emit] writes for the bucket is these fields, with
    the sum divided by the count for AVG.  The count is a [size_t], so
    the samples are fewer than 2^64. *)
Theorem bucket_statistics atof (s : aggregator) (k : nat) (b : bucket)
    (metrics : list string) (v : float) (vs : list float) :
  ring s ->
  buckets s !! k = Some b -> Bucket.cnt b = 0 ->
  Forall2 (in_window atof s k) metrics (v :: vs) ->
  Z.of_nat (length (v :: vs)) < 2 ^ 64 ->
  exists (s' : aggregator) (b' : bucket),
    putmetrics atof s metrics = Ok s' /\
    buckets s' !! k = Some b' /\
    (forall j : nat, j <> k -> buckets s' !! j = buckets s !! j) /\
    received s' = C.size_t (received s + Z.of_nat (length (v :: vs))) /\
    dropped s' = dropped s /\
    Bucket.start b' = Bucket.start b /\
    Bucket.cnt b' = Z.of_nat (length (v :: vs)) /\
    Bucket.sum b' = double_sum v vs /\
    is_maximum (Bucket.max b') (v :: vs) /\
    is_minimum (Bucket.min b') (v :: vs) /\
    emit s' b' =
      (fun c => report c (Z.of_nat (length (v :: vs))) (double_sum v vs)
                  (Bucket.max b') (Bucket.min b')
                  (C.llong (Bucket.start b + interval s)))
        <$> computes s.
Proof.
  intros R Hb Hempty Hall Hlen.
  destruct (putmetrics_in_window atof k metrics (v :: vs) s b R Hb Hall)
    as (s' & Hrun & Hbs & Hrc & Hdrop & Hsent & Hi & Hc).
  pose proof (bucket_put_statistics b v vs Hempty Hlen) as Hstat.
  cbv zeta in Hstat. destruct Hstat as (Hst & Hcnt & Hsum & Hmax & Hmin).
  exists s', (foldl bucket_put b (v :: vs)).
  split; [exact Hrun|]. split.
  { rewrite Hbs. apply list_lookup_insert_eq. now apply lookup_lt_Some in Hb. }
  split.
  { intros j Hj. rewrite Hbs. apply list_lookup_insert_ne. congruence. }
  split; [exact Hrc|]. split; [exact Hdrop|]. split; [exact Hst|].
  split; [exact Hcnt|]. split; [exact Hsum|]. split; [exact Hmax|].
  split; [exact Hmin|].
  now rewrite emit_report, Hi, Hc, Hcnt, Hsum, Hst.
Qed.

Lemma bucket_statistics_witness :
  ring example_ring /\
  exists (s' : aggregator) (b' : bucket),
    putmetrics atof_integral example_ring
      [ text_line "foo 1400000003 1400000003";
        text_line "foo 1400000001 1400000001";
        text_line "foo 1400000007 1400000007" ] = Ok s' /\
    buckets s' !! 5%nat = Some b' /\
    Bucket.cnt b' = 3 /\
    Bucket.sum b' =
      double_sum 1400000003%float [1400000001%float; 1400000007%float].
Proof.
  split; [exact example_ring_ok|].
  destruct (bucket_statistics atof_integral example_ring 5
              (Bucket.mk 1400000000 0 0%float 0%float 0%float)
              [ text_line "foo 1400000003 1400000003";
                text_line "foo 1400000001 1400000001";
                text_line "foo 1400000007 1400000007" ]
              1400000003%float [1400000001%float; 1400000007%float])
    as (s' & b' & Hrun & Hb' & _ & _ & _ & _ & Hcnt & Hsum & _).
  - exact example_ring_ok.
  - reflexivity.
  - reflexivity.
  - repeat constructor.
    + exists 1400000003, (Bucket.mk 1400000000 0 0%float 0%float 0%float).
      split; [vm_compute; reflexivity|]. split; [reflexivity|]. simpl. lia.
    + exists 1400000001, (Bucket.mk 1400000000 0 0%float 0%float 0%float).
      split; [vm_compute; reflexivity|]. split; [reflexivity|]. simpl. lia.
    + exists 1400000007, (Bucket.mk 1400000000 0 0%float 0%float 0%float).
      split; [vm_compute; reflexivity|]. split; [reflexivity|]. simpl. lia.
  - simpl. lia.
  - exists s', b'. auto.
Defined.

(** ** The length of the ring *)

(** C3 (amended).  For an interval above 0 the ring that
    [aggregator_new] allocates has floor (expiry / interval) + 3
    buckets, a length that [int] has to hold: the length the
    specification gives, ceil (expiry / interval) + 3, when the interval
    divides the expiry, and one less when it does not. *)
Theorem ring_length_floor (fresh : nat -> bucket) (now interval expire : Z) :
  0 < interval < 2 ^ 32 -> 0 <= expire < 2 ^ 32 ->
  expire / interval + 3 < 2 ^ 31 ->
  exists s,
    aggregator_new fresh now interval expire = Ok s /\
    bucketcnt s = expire / interval + 3 /\
    Z.of_nat (length (buckets s)) = expire / interval + 3 /\
    (expire mod interval = 0 ->
     bucketcnt s = spec_ring_length interval expire) /\
    (expire mod interval <> 0 ->
     bucketcnt s = spec_ring_length interval expire - 1).
Proof.
  intros Hi He Hcnt.
  assert (Hq : 0 <= expire / interval) by (apply Z.div_pos; lia).
  unfold aggregator_new. destruct (Z.eqb_spec interval 0); [lia|].
  replace (expire / interval + 1 + 2) with (expire / interval + 3) by lia.
  rewrite (uint_small (expire / interval + 3)) by lia.
  rewrite (int_small (expire / interval + 3)) by lia.
  eexists. split; [reflexivity|]. simpl.
  split; [reflexivity|].
  split; [rewrite length_fmap, length_seq; lia|].
  unfold spec_ring_length. split; intros Hm.
  - rewrite Z.div_opp_l_z by lia. lia.
  - rewrite Z.div_opp_l_nz by lia. lia.
Qed.

Lemma ring_length_floor_witness :
  exists s,
    aggregator_new zeroed 1400000000 10 65 = Ok s /\ bucketcnt s = 9.
Proof.
  destruct (ring_length_floor zeroed 1400000000 10 65)
    as (s & Hnew & Hcnt & _); [lia|lia|vm_compute; reflexivity|].
  exists s. split; [exact Hnew|]. rewrite Hcnt. reflexivity.
Defined.

(** C3 as the specification has it does not hold: an expiry of 65
    seconds at an interval of 10 gives 9 buckets, and
    ceil (65 / 10) + 3 is 10. *)
Lemma ring_length_not_ceiling :
  exists s,
    aggregator_new zeroed 1400000000 10 65 = Ok s /\
    Z.of_nat (length (buckets s)) <> spec_ring_length 10 65.
Proof.
  eexists. split; [vm_compute; reflexivity|]. vm_compute. discriminate.
Qed.

(** ** Samples before the ring *)

(** Where the difference of line 107 fits a [long long], a line whose
    epoch, as line 105 read it, is before the start of [buckets[0]] is
    counted in [dropped] once: the buckets and the other counters stay,
    and whatever the sweeper writes afterwards is what it would have
    written without the line. *)
Theorem putmetric_too_old atof (s : aggregator) (metric : string)
    (val : float) (epoch : Z) (b0 : bucket) :
  parse_metric atof metric = Some (val, epoch) ->
  buckets s !! 0%nat = Some b0 ->
  epoch < Bucket.start b0 ->
  C.LLONG_MIN <= epoch - Bucket.start b0 ->
  exists s',
    aggregator_putmetric atof s metric = Ok (s', []) /\
    dropped s' = C.size_t (dropped s + 1) /\
    buckets s' = buckets s /\
    received s' = received s /\ sent s' = sent s /\
    forall (fuel : nat) (now : Z) (out : list line),
      written (expire_one fuel now s' out)
      = written (expire_one fuel now s out).
Proof.
  intros Hparse Hb0 Hold Hfit.
  exists (set_dropped s (C.size_t (dropped s + 1))). split.
  - rewrite putmetric_parse, Hparse. unfold putmetric_sample.
    change 0 with (Z.of_nat 0) at 1. rewrite at_index_nat, Hb0.
    rewrite llong_small by (unfold C.LLONG_MAX; lia).
    now destruct (Z.ltb_spec (epoch - Bucket.start b0) 0); [|lia].
  - repeat split. intros fuel now out. apply written_set_dropped.
Qed.

Lemma putmetric_too_old_witness :
  exists s',
    aggregator_putmetric atof_integral example_ring
      (text_line "foo 1399999949 1399999949") = Ok (s', []) /\
    dropped s' = 1.
Proof.
  destruct (putmetric_too_old atof_integral example_ring
              (text_line "foo 1399999949 1399999949")
              1399999949%float 1399999949
              (Bucket.mk 1399999950 0 0%float 0%float 0%float))
    as (s' & Hrun & Hdrop & _).
  - vm_compute. reflexivity.
  - reflexivity.
  - simpl. lia.
  - vm_compute. discriminate.
  - exists s'. split; [exact Hrun|]. rewrite Hdrop. reflexivity.
Defined.

(** C4 (not met by the code).  The specification has every sample with
    an epoch before the start of [buckets[0]] counted in [dropped]
    once, with the buckets and [received] as they were.  Line 107
    takes the difference in [long long] and line 108 tests its sign:
    for the epoch -9223372036854775808 on a ring that starts at
    1399999950 the difference wraps to 9223372035454775858, the sample
    is not taken as old, [dropped] stays, the quotient
    922337203545477585 narrows to the [int] -998993455, and line 124
    reads [buckets[-998993455]]. *)
Theorem putmetric_oldest_epoch_not_dropped (atof : string -> float) :
  let metric :=
    text_line "foo -9223372036854775808 -9223372036854775808" in
  exists s b0,
    aggregator_new zeroed 1400000000 10 60 = Ok s /\
    buckets s !! 0%nat = Some b0 /\
    parse_metric atof metric
      = Some (atof (text_line "-9223372036854775808 -9223372036854775808"),
              -9223372036854775808) /\
    -9223372036854775808 < Bucket.start b0 /\
    C.llong (-9223372036854775808 - Bucket.start b0) = 9223372035454775858 /\
    aggregator_putmetric atof s metric = OutOfBounds (-998993455).
Proof.
  intros metric. eexists. eexists.
  split; [vm_compute; reflexivity|].
  split; [reflexivity|]. split; [vm_compute; reflexivity|].
  split; [reflexivity|]. split; [vm_compute; reflexivity|].
  vm_compute. reflexivity.
Qed.

(** ** Closing windows *)

(** C7.  One run of the inner loop on a ring, at a clock reading [now]:
    it returns, and the buckets it closed are, in this order, the
    windows that start at [buckets[0].start + i * interval] for i below
    their number; each of them had [start + interval < now - expire];
    what was written is their lines in that order; no bucket that is
    left in the ring has [start + interval < now - expire]; and the
    [for] loop goes to the next aggregator after that.  The clock and
    the start of the ring are within 2^62 seconds of the epoch. *)
Theorem sweeper_closes_expired_windows (now : Z) (s : aggregator)
    (out : list line) (b0 : bucket) :
  ring s -> buckets s !! 0%nat = Some b0 ->
  in_range now -> in_range (Bucket.start b0) ->
  exists (closed : list bucket) (s' : aggregator),
    (forall fuel, (length closed < fuel)%nat ->
       expire_one fuel now s out
       = Some (Ok (s', out ++ concat (emit s <$> closed)))) /\
    (forall (i : nat) (b : bucket), closed !! i = Some b ->
       Bucket.start b = Bucket.start b0 + Z.of_nat i * interval s /\
       Bucket.start b + interval s < now - expire s) /\
    (forall b : bucket, b ∈ buckets s' ->
       ~ Bucket.start b + interval s < now - expire s) /\
    (forall b0' : bucket, buckets s' !! 0%nat = Some b0' ->
       Bucket.start b0' =
         Bucket.start b0 + Z.of_nat (length closed) * interval s) /\
    ring s' /\
    sent s' =
      match closed with
      | [] => sent s
      | _ => C.size_t (sent s + Z.of_nat (length closed))
      end /\
    (forall fuel (rest : list aggregator), (length closed < fuel)%nat ->
       expire_all fuel now (s :: rest) out =
       match
         expire_all fuel now rest (out ++ concat (emit s <$> closed))
       with
       | Some (Ok (rest', out')) => Some (Ok (s' :: rest', out'))
       | r => r
       end).
Proof.
  intros R Hb0 Hnow Hstart.
  pose proof (ring_interval s R) as Hi.
  set (d := now - expire s - (Bucket.start b0 + interval s)).
  destruct (expire_one_closes now (Z.to_nat (Z.max 0 (d + 1))) Hnow
              s out b0 R Hb0 Hstart)
    as (closed & s' & b0' & Hrun & Hcl & R' & Hb0' & Hs0' & Hstop
        & Hsent & _ & _ & Hi' & _).
  { fold d. nia. }
  exists closed, s'. split; [exact Hrun|]. split; [exact Hcl|].
  split.
  { intros b Hin. apply list_elem_of_lookup in Hin as [j Hj].
    assert (Bucket.start b0' <= Bucket.start b).
    { destruct j as [|j].
      - rewrite Hb0' in Hj. injection Hj as <-. lia.
      - pose proof (ring_sorted s' 0 (S j) b0' b R' Hb0' Hj). lia. }
    lia. }
  split.
  { intros b Hb. rewrite Hb0' in Hb. now injection Hb as <-. }
  split; [exact R'|]. split; [exact Hsent|].
  intros fuel rest Hf. simpl. now rewrite (Hrun fuel Hf).
Qed.

Lemma sweeper_closes_expired_windows_witness :
  exists (closed : list bucket) (s' : aggregator),
    forall fuel, (length closed < fuel)%nat ->
      expire_one fuel 1400000040 example_ring []
      = Some (Ok (s', concat (emit example_ring <$> closed))).
Proof.
  destruct (sweeper_closes_expired_windows 1400000040 example_ring []
              (Bucket.mk 1399999950 0 0%float 0%float 0%float))
    as (closed & s' & Hrun & _).
  - exact example_ring_ok.
  - reflexivity.
  - unfold in_range. lia.
  - unfold in_range. simpl. lia.
  - exists closed, s'. exact Hrun.
Defined.

(** ** The invariant of the ring *)

(** C8.  Consecutive buckets start exactly one interval apart, so that
    the ring is sorted with the oldest window in [buckets[0]]:
    [aggregator_new] builds such a ring, and [aggregator_putmetric] and
    the rotation of the sweeper keep it.  The products and sums of the
    code are taken to fit their types: a ring of less than 2^32
    seconds built within 2^62 seconds of the epoch, and a new start
    that a [long long] holds. *)
Theorem ring_invariant :
  (forall (fresh : nat -> bucket) (now interval expire : Z),
     0 < interval -> 0 <= expire ->
     expire / interval + 3 < 2 ^ 31 ->
     (expire / interval + 2) * interval < 2 ^ 32 ->
     in_range now ->
     exists s, aggregator_new fresh now interval expire = Ok s /\ ring s) /\
  (forall atof (s s' : aggregator) (metric : string) (log : list string),
     ring s -> aggregator_putmetric atof s metric = Ok (s', log) ->
     ring s') /\
  (forall (s : aggregator) (b l : bucket),
     ring s -> buckets s !! 0%nat = Some b -> last (buckets s) = Some l ->
     C.LLONG_MIN <= Bucket.start l + interval s <= C.LLONG_MAX ->
     exists s', rotate s b = Ok s' /\ ring s') /\
  (forall (s : aggregator) (i j : nat) (x y : bucket),
     ring s -> buckets s !! i = Some x -> buckets s !! j = Some y ->
     (i < j)%nat ->
     Bucket.start y = Bucket.start x + Z.of_nat (j - i) * interval s /\
     Bucket.start x < Bucket.start y).
Proof.
  split; [|split; [|split]].
  - intros fresh now interval expire Hi He Hcnt Hspan Hnow.
    destruct (aggregator_new_ring fresh now interval expire)
      as (s & Hnew & R & _); auto.
    now exists s.
  - intros atof s s' metric log. apply ring_putmetric.
  - intros s b l R Hb Hl Hfit.
    destruct (ring_rotate s b R Hb) as (s' & l' & _ & Hrot & _ & R' & _).
    + intros l' Hl'. rewrite Hl in Hl'. now injection Hl' as <-.
    + now exists s'.
  - intros s i j x y R Hx Hy Hij.
    destruct (ring_head s R) as [b0 H0].
    pose proof (aligned_starts _ _ _ (ring_aligned s R) H0 i x Hx).
    pose proof (aligned_starts _ _ _ (ring_aligned s R) H0 j y Hy).
    pose proof (ring_interval s R). split; [nia|].
    now apply (ring_sorted s i j).
Qed.

Lemma ring_invariant_witness :
  exists s, aggregator_new zeroed 1400000000 10 60 = Ok s /\ ring s.
Proof.
  apply (proj1 ring_invariant); unfold in_range; try lia.
  - vm_compute. reflexivity.
  - vm_compute. reflexivity.
Defined.

(** ** What rotation leaves in a bucket *)

(** C10.  Rotation puts the bucket that was [buckets[0]] at the end of
    the array with [cnt] 0 and a new [start], and with the [sum], [max]
    and [min] it had; the other buckets move down one slot.  When no
    sample is stored in it until it is [buckets[0]] again, after
    [bucketcnt - 1] more rotations, the lines written for it carry that
    [sum], [max] and [min], a count of 0, and for AVG that [sum]
    divided by the [double] 0. *)
Theorem rotation_keeps_statistics (s : aggregator) (b : bucket) :
  Z.of_nat (length (buckets s)) = bucketcnt s -> 2 <= bucketcnt s ->
  buckets s !! 0%nat = Some b ->
  exists (s1 : aggregator) (l b' : bucket),
    last (buckets s) = Some l /\
    rotate s b = Ok s1 /\
    b' = Bucket.mk (C.llong (Bucket.start l + interval s)) 0
           (Bucket.sum b) (Bucket.max b) (Bucket.min b) /\
    buckets s1 = drop 1 (buckets s) ++ [b'] /\
    sent s1 = C.size_t (sent s + 1) /\
    received s1 = received s /\ dropped s1 = dropped s /\
    C.double_of_size_t 0 = 0%float /\
    exists (s2 : aggregator) (out : list line),
      close_windows (Z.to_nat (bucketcnt s) - 1) s1 [] = Ok (s2, out) /\
      buckets s2 !! 0%nat = Some b' /\
      emit s2 b' =
        (fun c =>
           mk_line (metric c)
             match type c with
             | SUM => Double (Bucket.sum b)
             | CNT => Size 0
             | MAX => Double (Bucket.max b)
             | MIN => Double (Bucket.min b)
             | AVG => Double (PrimFloat.div (Bucket.sum b) 0%float)
             end
             (C.llong (Bucket.start b' + interval s)))
          <$> computes s.
Proof.
  intros Hlen Hn Hb.
  destruct (buckets s) as [|b0 rest] eqn:Hbs; [discriminate|].
  injection Hb as ->.
  destruct (rotate_tail s b rest Hbs) as (l & Hl & Hrot);
    [now rewrite Hbs|exact Hn|].
  set (b' := Bucket.mk (C.llong (Bucket.start l + interval s)) 0
               (Bucket.sum b) (Bucket.max b) (Bucket.min b)) in *.
  set (s1 := set_buckets (set_sent s (C.size_t (sent s + 1))) (rest ++ [b']))
    in *.
  exists s1, l, b'.
  split; [now rewrite last_cons, Hl|].
  split; [exact Hrot|]. split; [reflexivity|].
  split; [reflexivity|]. split; [reflexivity|].
  split; [reflexivity|]. split; [reflexivity|].
  split; [reflexivity|].
  change (length (b :: rest)) with (S (length rest)) in Hlen.
  assert (Hlen1 : length (buckets s1) = S (length rest)).
  { subst s1. simpl. rewrite length_app. simpl. lia. }
  destruct (close_windows_shift (Z.to_nat (bucketcnt s) - 1) s1 [])
    as (s2 & out & Hrun & _ & _ & Hi2 & Hc2 & Hshift).
  { rewrite Hlen1. subst s1. simpl. lia. }
  { exact Hn. }
  exists s2, out. split; [exact Hrun|]. split.
  - rewrite Hshift by lia. subst s1. simpl.
    replace (Z.to_nat (bucketcnt s) - 1)%nat with (length rest + 0)%nat
      by lia.
    now rewrite lookup_app_r, Nat.add_0_r, Nat.sub_diag by lia.
  - unfold emit. rewrite Hi2, Hc2. subst s1. simpl.
    apply list_fmap_ext. intros _ c _. unfold compute.
    now destruct (type c).
Qed.

Lemma rotation_keeps_statistics_witness :
  exists s1 : aggregator,
    rotate example_ring (Bucket.mk 1399999950 0 0%float 0%float 0%float)
    = Ok s1 /\
    sent s1 = 1.
Proof.
  destruct (rotation_keeps_statistics example_ring
              (Bucket.mk 1399999950 0 0%float 0%float 0%float))
    as (s1 & l & b' & _ & Hrot & _ & _ & Hsent & _).
  - reflexivity.
  - simpl. lia.
  - reflexivity.
  - exists s1. split; [exact Hrot|]. rewrite Hsent. reflexivity.
Defined.

(** * Further properties of the code *)

(** ** Which lines the format check sends away *)

Lemma strchr_None (s : string) (c : ascii) :
  strchr s c = None <-> ~ In c (list_ascii_of_string s).
Proof.
  induction s as [|a r IH]; simpl.
  - split; [intros _ []|reflexivity].
  - destruct (Ascii.eqb_spec a c) as [->|Hne].
    + split; [discriminate|]. intros H. exfalso. apply H. now left.
    + rewrite IH. split.
      * intros H [Hc|Hc]; [congruence|now apply H].
      * intros H Hc. apply H. now right.
Qed.

Lemma putmetric_sample_log (s s' : aggregator) (metric : string)
    (val : float) (epoch : Z) (log : list string) :
  putmetric_sample s metric val epoch = Ok (s', log) ->
  log = [] \/ log = [log_future metric].
Proof.
  unfold putmetric_sample.
  destruct (at_index (buckets s) 0) as [b0|]; [|discriminate].
  destruct (_ <? 0); [intros [= _ <-]; now left|].
  destruct (interval s =? 0); [discriminate|].
  destruct (_ >=? bucketcnt s); [intros [= _ <-]; now right|].
  destruct (at_index _ _); [|discriminate].
  intros [= _ <-]. now left.
Qed.

(** X1.  [aggregator_putmetric] answers a line with the diagnostic of
    line 100 exactly when the line has no space in it, and then the
    aggregator is as it was; any other line goes on to the test of its
    epoch. *)
Theorem putmetric_rejects_iff_no_space atof (s : aggregator)
    (metric : string) :
  (~ In " "%char (list_ascii_of_string metric)
   <-> exists s', aggregator_putmetric atof s metric
                  = Ok (s', [log_incorrect metric])) /\
  (forall s', aggregator_putmetric atof s metric
              = Ok (s', [log_incorrect metric]) -> s' = s).
Proof.
  rewrite <- strchr_None.
  assert (Hsome : forall v s',
             strchr metric " " = Some v ->
             aggregator_putmetric atof s metric
             <> Ok (s', [log_incorrect metric])).
  { intros v s' Hv Hrun. rewrite putmetric_parse in Hrun.
    rewrite (parse_metric_first_space atof _ _ Hv) in Hrun.
    apply putmetric_sample_log in Hrun as [Hlog|Hlog];
      [discriminate|].
    unfold log_incorrect, log_future in Hlog. simpl in Hlog.
    discriminate. }
  split; [split|].
  - intros Hnone. exists s. now apply putmetric_no_space.
  - intros [s' Hrun]. destruct (strchr metric " ") as [v|] eqn:Hv;
      [|reflexivity].
    now destruct (Hsome v s' eq_refl).
  - intros s' Hrun. destruct (strchr metric " ") as [v|] eqn:Hv.
    + now destruct (Hsome v s' eq_refl).
    + rewrite (putmetric_no_space atof s metric Hv) in Hrun. congruence.
Qed.

(** ** Every line is counted once *)

(** The two ways in which lines 107-140 return. *)
Lemma putmetric_sample_cases (s s' : aggregator) (metric : string)
    (val : float) (epoch : Z) (log : list string) :
  putmetric_sample s metric val epoch = Ok (s', log) ->
  s' = set_dropped s (C.size_t (dropped s + 1)) \/
  exists (k : nat) (b : bucket),
    buckets s !! k = Some b /\
    s' = set_buckets (set_received s (C.size_t (received s + 1)))
           (<[k := bucket_put b val]> (buckets s)).
Proof.
  unfold putmetric_sample.
  destruct (at_index (buckets s) 0) as [b0|]; [|discriminate].
  destruct (_ <? 0); [intros [= <- _]; now left|].
  destruct (interval s =? 0); [discriminate|].
  set (slot := C.int _).
  destruct (slot >=? bucketcnt s); [intros [= <- _]; now left|].
  unfold at_index. destruct (slot <? 0); [discriminate|].
  destruct (buckets s !! Z.to_nat slot) as [b|] eqn:Hb; [|discriminate].
  intros [= <- _]. right. now exists (Z.to_nat slot), b.
Qed.

(** X2.  A call of [aggregator_putmetric] that returns never touches
    the periods, [bucketcnt], [sent], the statistics asked for, the
    number of buckets or the start of any bucket.  A line that passes
    the format check is counted exactly once: either [received] goes up
    by one and one bucket takes the value, or [dropped] goes up by one
    and the buckets stay. *)
Theorem putmetric_counts_once atof (s s' : aggregator) (metric : string)
    (log : list string) :
  aggregator_putmetric atof s metric = Ok (s', log) ->
  interval s' = interval s /\ expire s' = expire s /\
  bucketcnt s' = bucketcnt s /\ sent s' = sent s /\
  computes s' = computes s /\
  Bucket.start <$> buckets s' = Bucket.start <$> buckets s /\
  match parse_metric atof metric with
  | None => s' = s
  | Some (val, _) =>
      (received s' = C.size_t (received s + 1) /\ dropped s' = dropped s /\
       exists (k : nat) (b : bucket),
         buckets s !! k = Some b /\
         buckets s' = <[k := bucket_put b val]> (buckets s))
      \/
      (received s' = received s /\ dropped s' = C.size_t (dropped s + 1) /\
       buckets s' = buckets s)
  end.
Proof.
  rewrite putmetric_parse.
  destruct (parse_metric atof metric) as [[val epoch]|].
  2:{ intros [= <- _]. repeat split. }
  intros Hrun.
  apply putmetric_sample_cases in Hrun as [->|(k & b & Hb & ->)]; simpl.
  - repeat split. right. repeat split.
  - repeat split.
    + rewrite list_fmap_insert, bucket_put_start.
      apply list_insert_id. now rewrite list_lookup_fmap, Hb.
    + left. repeat split. now exists k, b.
Qed.

Lemma putmetric_counts_once_witness :
  exists s' : aggregator,
    aggregator_putmetric atof_integral example_ring
      (text_line "foo 1400000003 1400000003") = Ok (s', []) /\
    sent s' = sent example_ring.
Proof.
  eexists. split; [vm_compute; reflexivity|].
  eapply (putmetric_counts_once atof_integral example_ring _
            (text_line "foo 1400000003 1400000003") []).
  vm_compute. reflexivity.
Defined.

Lemma putmetric_rejects_iff_no_space_witness :
  exists s',
    aggregator_putmetric atof_integral example_ring (text_line "foo")
    = Ok (s', [log_incorrect (text_line "foo")]).
Proof.
  apply (proj1 (putmetric_rejects_iff_no_space atof_integral example_ring
                  (text_line "foo"))).
  vm_compute. intros H. repeat (destruct H as [H|H]; [discriminate H|]).
  exact H.
Defined.

(** ** Samples in the buckets and the counters *)

Lemma stored_insert (bs : list bucket) (k : nat) (b b' : bucket) :
  bs !! k = Some b ->
  stored (<[k := b']> bs) = stored bs - Bucket.cnt b + Bucket.cnt b'.
Proof.
  revert k. induction bs as [|x bs IH]; intros [|k] Hb; try discriminate.
  - injection Hb as ->. simpl. lia.
  - simpl in *. rewrite (IH k Hb). lia.
Qed.

Lemma stored_bound (bs : list bucket) (b : bucket) :
  (forall x, x ∈ bs -> 0 <= Bucket.cnt x) ->
  b ∈ bs -> 0 <= Bucket.cnt b <= stored bs.
Proof.
  induction bs as [|x bs IH]; intros Hpos Hin.
  - now apply elem_of_nil in Hin.
  - assert (0 <= stored bs).
    { clear -Hpos. induction bs as [|y bs IH]; simpl; [lia|].
      assert (0 <= Bucket.cnt y)
        by (apply Hpos; right; left).
      assert (0 <= stored bs); [|lia].
      apply IH. intros z Hz. apply Hpos.
      apply elem_of_cons in Hz as [->|Hz]; [left|right; now right]. }
    assert (0 <= Bucket.cnt x) by (apply Hpos; left).
    simpl. apply elem_of_cons in Hin as [->|Hin]; [lia|].
    assert (0 <= Bucket.cnt b <= stored bs); [|lia].
    apply IH; [|exact Hin]. intros z Hz. apply Hpos. now right.
Qed.

Lemma bucket_put_cnt (b : bucket) (val : float) :
  0 <= Bucket.cnt b < 2 ^ 64 - 1 ->
  Bucket.cnt (bucket_put b val) = Bucket.cnt b + 1.
Proof.
  intros H. unfold bucket_put.
  destruct (Z.eqb_spec (Bucket.cnt b) 0) as [->|Hne]; [reflexivity|].
  simpl. apply size_t_small. lia.
Qed.

Lemma putmetrics_accounts atof (metrics : list string) :
  forall s s' : aggregator,
    (forall b, b ∈ buckets s -> 0 <= Bucket.cnt b) ->
    stored (buckets s) = received s ->
    0 <= received s -> 0 <= dropped s ->
    received s + dropped s + Z.of_nat (length metrics) < 2 ^ 64 ->
    putmetrics atof s metrics = Ok s' ->
    stored (buckets s') = received s' /\
    received s' + dropped s' + rejected atof metrics
    = received s + dropped s + Z.of_nat (length metrics) /\
    received s <= received s' /\ dropped s <= dropped s'.
Proof.
  induction metrics as [|metric metrics IH];
    intros s s' Hpos Hst Hr Hd Hlen Hrun.
  - injection Hrun as <-. simpl. lia.
  - simpl in Hrun. change (length (metric :: metrics))
      with (S (length metrics)) in *.
    destruct (aggregator_putmetric atof s metric) as [[s1 log]| |] eqn:Hput;
      try discriminate.
    rewrite putmetric_parse in Hput. simpl rejected.
    destruct (parse_metric atof metric) as [[val epoch]|].
    2:{ injection Hput as <- _.
        destruct (IH s s' Hpos Hst Hr Hd ltac:(lia) Hrun) as (? & ? & ? & ?).
        lia. }
    apply putmetric_sample_cases in Hput as [->|(k & b & Hb & ->)].
    + rewrite size_t_small in Hrun by lia.
      specialize (IH (set_dropped s (dropped s + 1)) s').
      simpl in IH.
      destruct (IH Hpos Hst Hr) as (? & ? & ? & ?); try lia; exact Hrun.
    + assert (Hin : b ∈ buckets s) by (eapply list_elem_of_lookup_2; eauto).
      pose proof (stored_bound _ _ Hpos Hin) as Hcnt.
      assert (Hcnt' : Bucket.cnt (bucket_put b val) = Bucket.cnt b + 1)
        by (apply bucket_put_cnt; lia).
      rewrite size_t_small in Hrun by lia.
      specialize (IH (set_buckets (set_received s (received s + 1))
                        (<[k := bucket_put b val]> (buckets s))) s').
      simpl in IH.
      destruct IH as (? & ? & ? & ?); try lia; try exact Hrun.
      * intros x Hx. apply list_elem_of_lookup in Hx as [j Hj].
        destruct (decide (k = j)) as [->|Hne].
        -- rewrite list_lookup_insert_eq in Hj
             by (now apply lookup_lt_Some in Hb).
           injection Hj as <-. lia.
        -- rewrite list_lookup_insert_ne in Hj by exact Hne.
           apply Hpos. eapply list_elem_of_lookup_2; eauto.
      * rewrite (stored_insert _ _ _ _ Hb). lia.
Qed.

(** X3.  From a state with empty buckets and counters at 0, as
    [aggregator_new] leaves it, a run of [aggregator_putmetric] over
    fewer than 2^64 lines that returns has every line accounted for
    once: the lines are those counted in [received], those counted in
    [dropped] and those that the format check sent away; and the
    buckets hold as many samples as [received] says. *)
Theorem putmetrics_conservation atof (s s' : aggregator)
    (metrics : list string) :
  (forall b, b ∈ buckets s -> Bucket.cnt b = 0) ->
  received s = 0 -> dropped s = 0 ->
  Z.of_nat (length metrics) < 2 ^ 64 ->
  putmetrics atof s metrics = Ok s' ->
  stored (buckets s') = received s' /\
  received s' + dropped s' + rejected atof metrics
  = Z.of_nat (length metrics).
Proof.
  intros Hempty Hr Hd Hlen Hrun.
  assert (Hst : stored (buckets s) = 0).
  { clear -Hempty. induction (buckets s) as [|b bs IH]; [reflexivity|].
    simpl. rewrite (Hempty b) by left. rewrite IH; [reflexivity|].
    intros x Hx. apply Hempty. now right. }
  destruct (putmetrics_accounts atof metrics s s') as (H1 & H2 & _);
    try exact Hrun; try lia.
  intros b Hb. rewrite (Hempty b Hb). lia.
Qed.

Lemma putmetrics_conservation_witness :
  exists s' : aggregator,
    putmetrics atof_integral example_ring
      [ text_line "foo 1400000003 1400000003";
        text_line "foo";
        text_line "foo 42 1400000000";
        text_line "foo 1400000001 1400000001" ] = Ok s' /\
    stored (buckets s') = received s' /\
    received s' + dropped s'
    + rejected atof_integral
        [ text_line "foo 1400000003 1400000003";
          text_line "foo";
          text_line "foo 42 1400000000";
          text_line "foo 1400000001 1400000001" ] = 4.
Proof.
  eexists. split; [vm_compute; reflexivity|].
  apply (putmetrics_conservation atof_integral example_ring).
  - intros b Hb. apply list_elem_of_In in Hb. simpl in Hb.
    repeat (destruct Hb as [<-|Hb]; [reflexivity|]). destruct Hb.
  - reflexivity.
  - reflexivity.
  - simpl. lia.
  - vm_compute. reflexivity.
Defined.

(** ** How many windows a tick closes *)

Lemma expire_one_idle (now : Z) (s : aggregator) (out : list line)
    (b0 : bucket) (fuel : nat) :
  ring s -> buckets s !! 0%nat = Some b0 ->
  in_range now -> in_range (Bucket.start b0) ->
  now - expire s <= Bucket.start b0 + interval s ->
  (0 < fuel)%nat ->
  expire_one fuel now s out = Some (Ok (s, out)).
Proof.
  intros R Hb0 Hnow Hstart Hnot Hf. unfold in_range in *.
  destruct fuel as [|fuel]; [lia|].
  pose proof (ring_interval s R). pose proof (ring_expire s R).
  simpl. change 0 with (Z.of_nat 0) at 1. rewrite at_index_nat, Hb0.
  unfold expired.
  rewrite !llong_small by (unfold C.LLONG_MIN, C.LLONG_MAX; lia).
  now destruct (Z.ltb_spec (Bucket.start b0 + interval s) (now - expire s));
    [lia|].
Qed.

Lemma expire_one_tick (now : Z) (s : aggregator) (out : list line)
    (b0 : bucket) :
  ring s -> buckets s !! 0%nat = Some b0 ->
  in_range now -> in_range (Bucket.start b0) ->
  exists (closed : list bucket) (s' : aggregator) (b0' : bucket),
    Z.of_nat (length closed) = windows_due now s b0 /\
    (forall fuel, (length closed < fuel)%nat ->
       expire_one fuel now s out
       = Some (Ok (s', out ++ concat (emit s <$> closed)))) /\
    (forall (i : nat) (b : bucket), closed !! i = Some b ->
       Bucket.start b = Bucket.start b0 + Z.of_nat i * interval s) /\
    ring s' /\
    buckets s' !! 0%nat = Some b0' /\
    Bucket.start b0' = Bucket.start b0 + windows_due now s b0 * interval s /\
    in_range (Bucket.start b0') /\
    now - expire s <= Bucket.start b0' + interval s /\
    sent s' =
      (if windows_due now s b0 =? 0 then sent s
       else C.size_t (sent s + windows_due now s b0)) /\
    received s' = received s /\ dropped s' = dropped s /\
    interval s' = interval s /\ expire s' = expire s /\
    computes s' = computes s.
Proof.
  intros R Hb0 Hnow Hstart.
  pose proof (ring_interval s R) as Hi. pose proof (ring_expire s R) as He.
  set (d := now - expire s - (Bucket.start b0 + interval s)).
  destruct (expire_one_closes now (Z.to_nat (Z.max 0 (d + 1))) Hnow
              s out b0 R Hb0 Hstart)
    as (closed & s' & b0' & Hrun & Hcl & R' & Hb0' & Hs0' & Hstop
        & Hsent & Hrecv & Hdrop & Hi' & He' & Hc').
  { fold d. nia. }
  assert (Hk : Z.of_nat (length closed) = windows_due now s b0).
  { unfold windows_due.
    set (t := now - expire s - Bucket.start b0 - 1).
    destruct closed as [|c closed] using rev_ind.
    - simpl in *. assert (t / interval s <= 0); [|lia].
      destruct (Z.lt_ge_cases t 0).
      + assert (t / interval s < 0) by (apply Z.div_lt_upper_bound; lia).
        lia.
      + rewrite Z.div_small; lia.
    - clear IHclosed. rewrite length_app in *. simpl length in *.
      destruct (Hcl (length closed) c) as [Hsc Hexp].
      { now rewrite lookup_app_r, Nat.sub_diag by lia. }
      assert (Hq : t / interval s = Z.of_nat (length closed + 1)).
      { symmetry. apply Z.div_unique
          with (r := t - Z.of_nat (length closed + 1) * interval s); lia. }
      lia. }
  exists closed, s', b0'. rewrite <- Hk.
  split; [reflexivity|]. split; [exact Hrun|].
  split; [intros i b Hb; now apply (Hcl i b)|].
  split; [exact R'|]. split; [exact Hb0'|]. split; [exact Hs0'|].
  split.
  { unfold in_range in *. rewrite Hs0'.
    destruct closed as [|c closed] using rev_ind; [simpl; lia|].
    clear IHclosed. rewrite length_app in *. simpl length in *.
    destruct (Hcl (length closed) c) as [Hsc Hexp].
    { now rewrite lookup_app_r, Nat.sub_diag by lia. }
    lia. }
  split; [lia|]. split.
  { rewrite Hsent. destruct closed as [|c closed]; [reflexivity|].
    now destruct (Z.eqb_spec (Z.of_nat (length (c :: closed))) 0). }
  repeat split; assumption.
Qed.

(** X4.  On a ring, with the clock and the start of the ring within
    2^62 seconds of the epoch, one run of the inner loop closes exactly
    max (0, floor ((now - expire - buckets[0].start - 1) / interval))
    windows: [sent] goes up by that number (as a [size_t]), the start
    of [buckets[0]] moves forward by that many intervals and never
    backward, and [received] and [dropped] stay. *)
Theorem sweeper_closes_windows_due (now : Z) (s : aggregator)
    (out : list line) (b0 : bucket) :
  ring s -> buckets s !! 0%nat = Some b0 ->
  in_range now -> in_range (Bucket.start b0) ->
  0 <= sent s < 2 ^ 64 ->
  exists (s' : aggregator) (b0' : bucket) (lines : list line),
    (forall fuel, (Z.to_nat (windows_due now s b0) < fuel)%nat ->
       expire_one fuel now s out = Some (Ok (s', out ++ lines))) /\
    sent s' = C.size_t (sent s + windows_due now s b0) /\
    buckets s' !! 0%nat = Some b0' /\
    Bucket.start b0' = Bucket.start b0 + windows_due now s b0 * interval s /\
    Bucket.start b0 <= Bucket.start b0' /\
    received s' = received s /\ dropped s' = dropped s.
Proof.
  intros R Hb0 Hnow Hstart Hsent.
  destruct (expire_one_tick now s out b0 R Hb0 Hnow Hstart)
    as (closed & s' & b0' & Hk & Hrun & _ & R' & Hb0' & Hs0' & _ & _
        & Hsent' & Hrecv & Hdrop & _).
  exists s', b0', (concat (emit s <$> closed)).
  split.
  { intros fuel Hf. apply Hrun. lia. }
  split.
  { rewrite Hsent'.
    destruct (Z.eqb_spec (windows_due now s b0) 0) as [->|_];
      [|reflexivity].
    now rewrite Z.add_0_r, size_t_small. }
  split; [exact Hb0'|]. split; [exact Hs0'|].
  pose proof (ring_interval s R). unfold windows_due in *.
  split; [nia|]. split; assumption.
Qed.

Lemma sweeper_closes_windows_due_witness :
  exists s' : aggregator,
    (forall fuel, (2 < fuel)%nat ->
       exists lines,
         expire_one fuel 1400000040 example_ring [] = Some (Ok (s', lines))) /\
    sent s' = 2.
Proof.
  destruct (sweeper_closes_windows_due 1400000040 example_ring []
              (Bucket.mk 1399999950 0 0%float 0%float 0%float))
    as (s' & b0' & lines & Hrun & Hsent & _).
  - exact example_ring_ok.
  - reflexivity.
  - unfold in_range. lia.
  - unfold in_range. simpl. lia.
  - simpl. lia.
  - exists s'. split.
    + intros fuel Hf. exists lines. apply (Hrun fuel). vm_compute. lia.
    + rewrite Hsent. reflexivity.
Defined.

(** ** A second run at the same time *)

(** X5.  After the inner loop has run on a ring at a clock reading
    [now], a further run at [now] or at an earlier reading writes
    nothing and leaves the aggregator as it is: no window is closed
    twice. *)
Theorem sweeper_second_run_idle (now now' : Z) (s : aggregator)
    (out : list line) (b0 : bucket) :
  ring s -> buckets s !! 0%nat = Some b0 ->
  in_range now -> in_range (Bucket.start b0) ->
  in_range now' -> now' <= now ->
  exists (s' : aggregator) (lines : list line),
    (forall fuel, (Z.to_nat (windows_due now s b0) < fuel)%nat ->
       expire_one fuel now s out = Some (Ok (s', out ++ lines))) /\
    (forall fuel out', (0 < fuel)%nat ->
       expire_one fuel now' s' out' = Some (Ok (s', out'))).
Proof.
  intros R Hb0 Hnow Hstart Hnow' Hle.
  destruct (expire_one_tick now s out b0 R Hb0 Hnow Hstart)
    as (closed & s' & b0' & Hk & Hrun & _ & R' & Hb0' & _ & Hr' & Hstop
        & _ & _ & _ & Hi' & He' & _).
  exists s', (concat (emit s <$> closed)). split.
  - intros fuel Hf. apply Hrun. lia.
  - intros fuel out' Hf.
    apply (expire_one_idle now' s' out' b0'); auto.
    rewrite Hi', He'. lia.
Qed.

Lemma sweeper_second_run_idle_witness :
  exists s' : aggregator,
    forall fuel out', (0 < fuel)%nat ->
      expire_one fuel 1400000040 s' out' = Some (Ok (s', out')).
Proof.
  destruct (sweeper_second_run_idle 1400000040 1400000040 example_ring []
              (Bucket.mk 1399999950 0 0%float 0%float 0%float))
    as (s' & lines & _ & Hidle).
  - exact example_ring_ok.
  - reflexivity.
  - unfold in_range. lia.
  - unfold in_range. simpl. lia.
  - unfold in_range. lia.
  - lia.
  - exists s'. exact Hidle.
Defined.

(** ** Names and epochs of the lines *)

Lemma headings_of_closed (s : aggregator) (base : Z) (closed : list bucket) :
  forall j : nat,
    (forall (i : nat) (b : bucket), closed !! i = Some b ->
       Bucket.start b = base + Z.of_nat (j + i) * interval s /\
       C.LLONG_MIN <= Bucket.start b + interval s <= C.LLONG_MAX) ->
    heading <$> concat (emit s <$> closed) =
    concat ((fun i : nat =>
               (fun c => (metric c, base + (Z.of_nat i + 1) * interval s))
                 <$> computes s)
              <$> seq j (length closed)).
Proof.
  induction closed as [|b closed IH]; intros j Hcl; [reflexivity|].
  simpl. rewrite fmap_app. f_equal.
  - destruct (Hcl 0%nat b eq_refl) as [Hs Hfit].
    unfold emit. rewrite <- list_fmap_compose.
    apply list_fmap_ext. intros _ c _. unfold heading. simpl.
    rewrite llong_small by exact Hfit. f_equal. rewrite Hs. lia.
  - apply IH. intros i x Hx. destruct (Hcl (S i) x Hx) as [Hs Hfit].
    split; [|exact Hfit]. rewrite Hs. f_equal. f_equal. lia.
Qed.

(** X6.  What one run of the inner loop on a ring writes, by name and
    epoch: for each closed window in turn, the oldest first, one line
    per statistic asked for, in the order of [computes], all of them
    with the end of that window, [start + interval], as their epoch. *)
Theorem sweeper_line_headings (now : Z) (s : aggregator)
    (out : list line) (b0 : bucket) :
  ring s -> buckets s !! 0%nat = Some b0 ->
  in_range now -> in_range (Bucket.start b0) ->
  exists (s' : aggregator) (lines : list line),
    (forall fuel, (Z.to_nat (windows_due now s b0) < fuel)%nat ->
       expire_one fuel now s out = Some (Ok (s', out ++ lines))) /\
    heading <$> lines =
    concat ((fun i : nat =>
               (fun c =>
                  (metric c,
                   Bucket.start b0 + (Z.of_nat i + 1) * interval s))
                 <$> computes s)
              <$> seq 0 (Z.to_nat (windows_due now s b0))).
Proof.
  intros R Hb0 Hnow Hstart.
  destruct (expire_one_tick now s out b0 R Hb0 Hnow Hstart)
    as (closed & s' & b0' & Hk & Hrun & Hcl & _ & _ & Hs0' & Hr' & _).
  exists s', (concat (emit s <$> closed)). split.
  - intros fuel Hf. apply Hrun. lia.
  - rewrite <- Hk, Nat2Z.id. apply headings_of_closed.
    intros i b Hb. split; [now apply Hcl|].
    pose proof (Hcl i b Hb) as Hs. pose proof (lookup_lt_Some _ _ _ Hb).
    pose proof (ring_interval s R).
    unfold in_range, C.LLONG_MIN, C.LLONG_MAX in *. nia.
Qed.

Lemma sweeper_line_headings_witness :
  exists (s' : aggregator) (lines : list line),
    expire_one 3 1400000040 example_ring [] = Some (Ok (s', lines)) /\
    heading <$> lines =
      [ ("foo.sum", 1399999960); ("foo.count", 1399999960);
        ("foo.max", 1399999960); ("foo.min", 1399999960);
        ("foo.avg", 1399999960);
        ("foo.sum", 1399999970); ("foo.count", 1399999970);
        ("foo.max", 1399999970); ("foo.min", 1399999970);
        ("foo.avg", 1399999970) ]%string.
Proof.
  destruct (sweeper_line_headings 1400000040 example_ring []
              (Bucket.mk 1399999950 0 0%float 0%float 0%float))
    as (s' & lines & Hrun & Hhead).
  - exact example_ring_ok.
  - reflexivity.
  - unfold in_range. lia.
  - unfold in_range. simpl. lia.
  - exists s', lines. split.
    + apply (Hrun 3%nat). vm_compute. lia.
    + rewrite Hhead. vm_compute. reflexivity.
Defined.

(** ** From the lines of a window to the lines written for it *)

Lemma ring_putmetrics atof (metrics : list string) :
  forall s s' : aggregator,
    ring s -> putmetrics atof s metrics = Ok s' -> ring s'.
Proof.
  induction metrics as [|metric metrics IH]; intros s s' R Hrun.
  - now injection Hrun as <-.
  - simpl in Hrun.
    destruct (aggregator_putmetric atof s metric) as [[s1 log]| |] eqn:Hput;
      try discriminate.
    apply (IH s1 s'); [|exact Hrun]. eapply ring_putmetric; eauto.
Qed.

Lemma expire_one_step (fuel : nat) (now : Z) (s s' : aggregator)
    (out : list line) (b : bucket) :
  buckets s !! 0%nat = Some b -> expired now s b = true ->
  rotate s b = Ok s' ->
  expire_one (S fuel) now s out = expire_one fuel now s' (out ++ emit s b).
Proof.
  intros H1 H2 H3. simpl. change 0 with (Z.of_nat 0) at 1.
  now rewrite at_index_nat, H1, H2, H3.
Qed.

(** X7.  On a ring whose [buckets[0]] is empty: the lines with an epoch
    in the window of [buckets[0]] go in, and the first run of the
    sweeper at a time when that window has closed and the next one has
    not writes, for each statistic asked for, the count of those lines,
    the sum of their values in [double], a largest and a smallest of
    them and their average, under the end of the window as epoch; the
    aggregator then has one more window in [sent]. *)
Theorem window_round_trip atof (s : aggregator) (b : bucket)
    (metrics : list string) (v : float) (vs : list float) (now : Z) :
  ring s -> buckets s !! 0%nat = Some b -> Bucket.cnt b = 0 ->
  Forall2 (in_window atof s 0) metrics (v :: vs) ->
  Z.of_nat (length (v :: vs)) < 2 ^ 64 ->
  in_range now -> in_range (Bucket.start b) ->
  Bucket.start b + interval s < now - expire s
    <= Bucket.start b + 2 * interval s ->
  exists (s1 s2 : aggregator) (hi lo : float),
    putmetrics atof s metrics = Ok s1 /\
    (forall fuel, (1 < fuel)%nat ->
       expire_one fuel now s1 [] =
       Some (Ok (s2,
                 (fun c =>
                    report c (Z.of_nat (length (v :: vs))) (double_sum v vs)
                      hi lo (Bucket.start b + interval s))
                   <$> computes s))) /\
    is_maximum hi (v :: vs) /\ is_minimum lo (v :: vs) /\
    received s2 = C.size_t (received s + Z.of_nat (length (v :: vs))) /\
    sent s2 = C.size_t (sent s + 1).
Proof.
  intros R Hb Hempty Hall Hlen Hnow Hstart Hdue.
  destruct (putmetrics_in_window atof 0 metrics (v :: vs) s b R Hb Hall)
    as (s1 & Hrun & Hbs & Hrc & Hdrop & Hsent & Hi & Hc).
  pose proof (bucket_put_statistics b v vs Hempty Hlen) as Hstat.
  cbv zeta in Hstat. destruct Hstat as (Hst & Hcnt & Hsum & Hmax & Hmin).
  set (b' := foldl bucket_put b (v :: vs)) in *.
  pose proof (ring_putmetrics atof metrics s s1 R Hrun) as R1.
  pose proof (ring_interval s R) as HI. pose proof (ring_expire s R) as HE.
  pose proof (ring_length s R) as Hn. pose proof (ring_bucketcnt s R) as Hn'.
  pose proof (ring_span s R) as Hspan.
  assert (Hq : 0 <= expire s / interval s) by (apply Z.div_pos; lia).
  assert (He1 : expire s1 = expire s).
  { pose proof (ring_bucketcnt s1 R1) as H1. pose proof (ring_length s1 R1).
    clear -Hrun. revert s Hrun.
    induction metrics as [|m ms IH]; intros s Hrun.
    - now injection Hrun as <-.
    - simpl in Hrun.
      destruct (aggregator_putmetric atof s m) as [[s0 log]| |] eqn:Hput;
        try discriminate.
      rewrite (IH s0 Hrun). rewrite putmetric_parse in Hput.
      destruct (parse_metric atof m) as [[val epoch]|].
      + apply putmetric_sample_cases in Hput
          as [->|(k & x & _ & ->)]; reflexivity.
      + now injection Hput as <-. }
  assert (Hhead : buckets s1 !! 0%nat = Some b').
  { rewrite Hbs. apply list_lookup_insert_eq. now apply lookup_lt_Some in Hb. }
  assert (Hlen1 : length (buckets s1) = length (buckets s))
    by now rewrite Hbs, length_insert.
  unfold in_range in *.
  destruct (ring_rotate s1 b' R1 Hhead)
    as (s2 & l & Hl & Hrot & Hbs2 & R2 & Hsent2 & Hrecv2 & _ & Hi2 & He2 & _).
  { intros l Hl. rewrite last_lookup in Hl.
    pose proof (aligned_starts _ _ _ (ring_aligned s1 R1) Hhead _ _ Hl) as Hs.
    rewrite Hi, Hst, Hlen1 in Hs. rewrite Hi.
    assert (0 <= Z.of_nat (pred (length (buckets s))) * interval s
            <= bucketcnt s * interval s) by nia.
    unfold C.LLONG_MIN, C.LLONG_MAX. lia. }
  destruct (lookup_lt_is_Some_2 (buckets s1) 1) as [b1 Hb1]; [lia|].
  pose proof (aligned_starts _ _ _ (ring_aligned s1 R1) Hhead _ _ Hb1) as Hs1.
  assert (Hhead2 : buckets s2 !! 0%nat = Some b1).
  { rewrite Hbs2, lookup_app_l.
    - now rewrite lookup_drop.
    - rewrite length_drop. lia. }
  exists s1, s2, (Bucket.max b'), (Bucket.min b').
  split; [exact Hrun|]. split.
  { intros [|[|fuel]] Hf; try lia.
    rewrite (expire_one_step _ now s1 s2 [] b' Hhead); [|
      unfold expired; rewrite Hi, He1, Hst;
      rewrite !llong_small by (unfold C.LLONG_MIN, C.LLONG_MAX; lia);
      now destruct (Z.ltb_spec (Bucket.start b + interval s)
                      (now - expire s)); [|lia]
      |exact Hrot].
    rewrite (expire_one_idle now s2 _ b1 (S fuel) R2 Hhead2);
      unfold in_range; rewrite ?Hi2, ?He2, ?Hi, ?He1, ?Hs1, ?Hst; try lia.
    simpl app. rewrite emit_report, Hi, Hc, Hcnt, Hsum, Hst.
    rewrite llong_small by (unfold C.LLONG_MIN, C.LLONG_MAX; lia).
    reflexivity. }
  split; [exact Hmax|]. split; [exact Hmin|].
  split; [now rewrite Hrecv2, Hrc|now rewrite Hsent2, Hsent].
Qed.

Lemma window_round_trip_witness :
  exists (s1 s2 : aggregator) (hi lo : float),
    putmetrics atof_integral example_ring
      [ text_line "foo 1399999953 1399999953";
        text_line "foo 1399999951 1399999951" ] = Ok s1 /\
    expire_one 2 1400000025 s1 [] =
    Some (Ok (s2,
              (fun c =>
                 report c 2
                   (double_sum 1399999953%float [1399999951%float])
                   hi lo 1399999960)
                <$> example_computes)).
Proof.
  destruct (window_round_trip atof_integral example_ring
              (Bucket.mk 1399999950 0 0%float 0%float 0%float)
              [ text_line "foo 1399999953 1399999953";
                text_line "foo 1399999951 1399999951" ]
              1399999953%float [1399999951%float] 1400000025)
    as (s1 & s2 & hi & lo & Hput & Hrun & _).
  - exact example_ring_ok.
  - reflexivity.
  - reflexivity.
  - repeat constructor.
    + exists 1399999953, (Bucket.mk 1399999950 0 0%float 0%float 0%float).
      split; [vm_compute; reflexivity|]. split; [reflexivity|]. simpl. lia.
    + exists 1399999951, (Bucket.mk 1399999950 0 0%float 0%float 0%float).
      split; [vm_compute; reflexivity|]. split; [reflexivity|]. simpl. lia.
  - simpl. lia.
  - unfold in_range. lia.
  - unfold in_range. simpl. lia.
  - simpl. lia.
  - exists s1, s2, hi, lo. split; [exact Hput|]. apply (Hrun 2%nat). lia.
Defined.

(** ** A window after its rotation *)

Lemma ring_rotate_in_range (s : aggregator) (b : bucket) :
  ring s -> buckets s !! 0%nat = Some b -> in_range (Bucket.start b) ->
  exists (s' : aggregator) (l b1 : bucket),
    last (buckets s) = Some l /\
    rotate s b = Ok s' /\ ring s' /\
    Bucket.start l
      = Bucket.start b + (bucketcnt s - 1) * interval s /\
    buckets s' !! 0%nat = Some b1 /\
    Bucket.start b1 = Bucket.start b + interval s /\
    buckets s' !! Z.to_nat (bucketcnt s - 1)
      = Some (Bucket.mk (Bucket.start l + interval s) 0
                (Bucket.sum b) (Bucket.max b) (Bucket.min b)) /\
    interval s' = interval s /\ received s' = received s /\
    dropped s' = dropped s.
Proof.
  intros R Hb Hstart. unfold in_range in Hstart.
  pose proof (ring_interval s R) as HI. pose proof (ring_expire s R) as HE.
  pose proof (ring_length s R) as Hn. pose proof (ring_bucketcnt s R) as Hn'.
  pose proof (ring_span s R) as Hspan.
  assert (Hq : 0 <= expire s / interval s) by (apply Z.div_pos; lia).
  assert (Hlast : forall l, last (buckets s) = Some l ->
            Bucket.start l = Bucket.start b + (bucketcnt s - 1) * interval s).
  { intros l Hl. rewrite last_lookup in Hl.
    rewrite (aligned_starts _ _ _ (ring_aligned s R) Hb _ _ Hl).
    f_equal. f_equal. lia. }
  destruct (ring_rotate s b R Hb)
    as (s' & l & Hl & Hrot & Hbs' & R' & _ & Hrecv & Hdrop & Hi' & _).
  { intros l Hl. rewrite (Hlast l Hl).
    unfold C.LLONG_MIN, C.LLONG_MAX. nia. }
  destruct (lookup_lt_is_Some_2 (buckets s) 1) as [b1 Hb1]; [lia|].
  exists s', l, b1. split; [exact Hl|]. split; [exact Hrot|].
  split; [exact R'|]. split; [now apply Hlast|].
  split.
  { rewrite Hbs', lookup_app_l.
    - now rewrite lookup_drop.
    - rewrite length_drop. lia. }
  split.
  { rewrite (aligned_starts _ _ _ (ring_aligned s R) Hb _ _ Hb1). lia. }
  split.
  { rewrite Hbs', lookup_app_r by (rewrite length_drop; lia).
    rewrite length_drop.
    now replace (Z.to_nat (bucketcnt s - 1) - (length (buckets s) - 1))%nat
      with 0%nat by lia. }
  repeat split; assumption.
Qed.

(** X8.  A sample of the window of [buckets[0]] is stored there as
    long as the window is open; once the sweeper has rotated the ring,
    the same sample is counted in [dropped] and reaches no bucket. *)
Theorem closed_window_is_dropped (s : aggregator) (b : bucket)
    (metric : string) (val : float) (epoch : Z) :
  ring s -> buckets s !! 0%nat = Some b -> in_range (Bucket.start b) ->
  Bucket.start b <= epoch < Bucket.start b + interval s ->
  putmetric_sample s metric val epoch =
    Ok (set_buckets (set_received s (C.size_t (received s + 1)))
          (<[0%nat := bucket_put b val]> (buckets s)), []) /\
  exists s',
    rotate s b = Ok s' /\
    putmetric_sample s' metric val epoch =
      Ok (set_dropped s' (C.size_t (dropped s' + 1)), []).
Proof.
  intros R Hb Hstart Hwin.
  split; [now apply putmetric_sample_stored|].
  destruct (ring_rotate_in_range s b R Hb Hstart)
    as (s' & l & b1 & _ & Hrot & _ & _ & Hb1 & Hs1 & _).
  exists s'. split; [exact Hrot|].
  pose proof (ring_interval s R).
  unfold putmetric_sample.
  change 0 with (Z.of_nat 0) at 1. rewrite at_index_nat, Hb1, Hs1.
  rewrite llong_small by (unfold C.LLONG_MIN, C.LLONG_MAX; lia).
  now destruct (Z.ltb_spec (epoch - (Bucket.start b + interval s)) 0);
    [|lia].
Qed.

Lemma closed_window_is_dropped_witness :
  exists s',
    rotate example_ring (Bucket.mk 1399999950 0 0%float 0%float 0%float)
      = Ok s' /\
    putmetric_sample s' "foo" 1%float 1399999955 =
      Ok (set_dropped s' (C.size_t (dropped s' + 1)), []).
Proof.
  apply (closed_window_is_dropped example_ring
           (Bucket.mk 1399999950 0 0%float 0%float 0%float)
           "foo" 1%float 1399999955).
  - exact example_ring_ok.
  - reflexivity.
  - unfold in_range. simpl. lia.
  - simpl. lia.
Defined.

(** X9.  The bucket that rotation puts at the end of the ring takes the
    samples of its new window, the interval after the one that was the
    last: the first of them makes its count 1 and its sum, maximum and
    minimum the value of the sample, whatever the closed window had
    left in these fields. *)
Theorem recycled_bucket_starts_afresh (s : aggregator) (b : bucket)
    (metric : string) (val : float) (epoch : Z) :
  ring s -> buckets s !! 0%nat = Some b -> in_range (Bucket.start b) ->
  Bucket.start b + bucketcnt s * interval s <= epoch
    < Bucket.start b + (bucketcnt s + 1) * interval s ->
  exists s' s'',
    rotate s b = Ok s' /\
    putmetric_sample s' metric val epoch = Ok (s'', []) /\
    buckets s'' !! Z.to_nat (bucketcnt s - 1)
      = Some (Bucket.mk (Bucket.start b + bucketcnt s * interval s)
                1 val val val) /\
    received s'' = C.size_t (received s + 1) /\ dropped s'' = dropped s.
Proof.
  intros R Hb Hstart Hwin.
  destruct (ring_rotate_in_range s b R Hb Hstart)
    as (s' & l & b1 & _ & Hrot & R' & Hsl & _ & _ & Hlast & Hi' & Hrecv
        & Hdrop).
  pose proof (ring_length s R). pose proof (ring_bucketcnt s R).
  pose proof (ring_interval s R). pose proof (ring_expire s R).
  assert (0 <= expire s / interval s) by (apply Z.div_pos; lia).
  eexists s', _. split; [exact Hrot|]. split.
  - eapply putmetric_sample_stored; [exact R'|exact Hlast|].
    simpl. rewrite Hi', Hsl. lia.
  - simpl. split.
    + rewrite list_lookup_insert_eq by (now apply lookup_lt_Some in Hlast).
      rewrite bucket_put_first by reflexivity. simpl.
      rewrite Hsl. do 2 f_equal. lia.
    + now rewrite Hrecv, Hdrop.
Qed.

Lemma recycled_bucket_starts_afresh_witness :
  exists s' s'',
    rotate example_ring (Bucket.mk 1399999950 0 0%float 0%float 0%float)
      = Ok s' /\
    putmetric_sample s' "foo" 7%float 1400000042 = Ok (s'', []) /\
    buckets s'' !! 8%nat = Some (Bucket.mk 1400000040 1 7%float 7%float
                                   7%float).
Proof.
  destruct (recycled_bucket_starts_afresh example_ring
              (Bucket.mk 1399999950 0 0%float 0%float 0%float)
              "foo" 7%float 1400000042)
    as (s' & s'' & Hrot & Hput & Hb & _).
  - exact example_ring_ok.
  - reflexivity.
  - unfold in_range. simpl. lia.
  - simpl. lia.
  - exists s', s''. split; [exact Hrot|]. split; [exact Hput|]. exact Hb.
Defined.

(** ** A new ring and the present *)

Lemma aggregator_new_head (fresh : nat -> bucket) (now intv expiry : Z)
    (s : aggregator) (b0 : bucket) :
  0 < intv -> 1 <= expiry ->
  (expiry / intv + 2) * intv < 2 ^ 32 ->
  in_range now ->
  aggregator_new fresh now intv expiry = Ok s ->
  buckets s !! 0%nat = Some b0 ->
  Bucket.start b0 = now - (expiry - 1) / intv * intv.
Proof.
  intros Hi He Hspan Hnow Hnew Hb0. unfold in_range in Hnow.
  assert (Hq : 0 <= expiry / intv) by (apply Z.div_pos; lia).
  assert (Hq' : 0 <= (expiry - 1) / intv) by (apply Z.div_pos; lia).
  pose proof (Z.mul_div_le (expiry - 1) intv Hi) as Hle.
  pose proof (Z.mul_div_le expiry intv Hi) as Hle'.
  pose proof (Z.mod_pos_bound expiry intv Hi) as Hmod.
  pose proof (Z.div_mod expiry intv ltac:(lia)) as Hdm.
  unfold aggregator_new in Hnew.
  destruct (Z.eqb_spec intv 0); [lia|].
  injection Hnew as <-. simpl in Hb0.
  rewrite list_lookup_fmap in Hb0.
  destruct (seq 0 _ !! 0%nat) as [j|] eqn:Ej; [|discriminate].
  apply lookup_seq in Ej as [-> _]. simpl in Hb0. injection Hb0 as <-.
  simpl Bucket.start.
  assert (Hlt : expiry < 2 ^ 32) by nia.
  rewrite (uint_small (expiry - 1)) by lia.
  rewrite (uint_small ((expiry - 1) / intv * intv)) by lia.
  change (Z.of_nat 0 * intv) with 0. rewrite (uint_small 0) by lia.
  rewrite (llong_small (now - (expiry - 1) / intv * intv))
    by (unfold C.LLONG_MIN, C.LLONG_MAX; lia).
  rewrite Z.add_0_r.
  apply llong_small. unfold C.LLONG_MIN, C.LLONG_MAX. lia.
Qed.

(** X10.  The ring that [aggregator_new] builds for an expiry of at
    least one second starts at [now - ((expire - 1) / interval) *
    interval]: it stores every sample with an epoch from there to less
    than three intervals after [now], the present one among them, and a
    run of the sweeper at [now] closes nothing. *)
Theorem new_ring_takes_the_present (fresh : nat -> bucket)
    (now intv expiry : Z) (metric : string) (val : float) (epoch : Z) :
  0 < intv -> 1 <= expiry ->
  expiry / intv + 3 < 2 ^ 31 ->
  (expiry / intv + 2) * intv < 2 ^ 32 ->
  in_range now -> in_range (now - expiry) ->
  now - (expiry - 1) / intv * intv <= epoch < now + 3 * intv ->
  exists s,
    aggregator_new fresh now intv expiry = Ok s /\
    (exists (k : nat) (b : bucket),
       buckets s !! k = Some b /\
       Bucket.start b <= epoch < Bucket.start b + intv /\
       putmetric_sample s metric val epoch =
         Ok (set_buckets (set_received s 1)
               (<[k := bucket_put b val]> (buckets s)), [])) /\
    (forall fuel out, (0 < fuel)%nat ->
       expire_one fuel now s out = Some (Ok (s, out))).
Proof.
  intros Hi He Hcnt Hspan Hnow Hpast Hwin.
  destruct (aggregator_new_ring fresh now intv expiry)
    as (s & Hnew & R & Hsi & Hse & Hrecv & _); try lia; try exact Hnow.
  destruct (ring_head s R) as [b0 Hb0].
  pose proof (aggregator_new_head fresh now intv expiry s b0
                Hi He Hspan Hnow Hnew Hb0) as Hs0.
  pose proof (ring_length s R) as Hlen.
  pose proof (ring_bucketcnt s R) as Hn. rewrite Hsi, Hse in Hn.
  assert (Hq' : 0 <= (expiry - 1) / intv) by (apply Z.div_pos; lia).
  assert (Hqq : (expiry - 1) / intv <= expiry / intv)
    by (apply Z.div_le_mono; lia).
  pose proof (Z.mul_div_le (expiry - 1) intv Hi) as Hle.
  unfold in_range in *.
  exists s. split; [exact Hnew|]. split.
  - set (off := epoch - Bucket.start b0).
    assert (Hoff : 0 <= off < ((expiry - 1) / intv + 3) * intv)
      by (subst off; lia).
    assert (Hk : 0 <= off / intv < expiry / intv + 3).
    { split; [apply Z.div_pos; lia|].
      apply Z.div_lt_upper_bound; nia. }
    destruct (lookup_lt_is_Some_2 (buckets s) (Z.to_nat (off / intv)))
      as [b Hb]; [lia|].
    pose proof (aligned_starts _ _ _ (ring_aligned s R) Hb0 _ _ Hb) as Hsb.
    rewrite Z2Nat.id, Hsi in Hsb by lia.
    pose proof (Z.mul_div_le off intv Hi).
    pose proof (Z.mul_succ_div_gt off intv Hi).
    assert (Hin : Bucket.start b <= epoch < Bucket.start b + intv)
      by (subst off; lia).
    exists (Z.to_nat (off / intv)), b. split; [exact Hb|].
    split; [exact Hin|].
    rewrite (putmetric_sample_stored s metric val epoch _ b R Hb)
      by (rewrite Hsi; exact Hin).
    now rewrite Hrecv.
  - intros fuel out Hf. apply (expire_one_idle now s out b0); auto.
    + unfold in_range. lia.
    + rewrite Hsi, Hse. lia.
Qed.

Lemma new_ring_takes_the_present_witness :
  exists s,
    aggregator_new zeroed 1400000000 10 60 = Ok s /\
    forall fuel out, (0 < fuel)%nat ->
      expire_one fuel 1400000000 s out = Some (Ok (s, out)).
Proof.
  destruct (new_ring_takes_the_present zeroed 1400000000 10 60
              "foo" 1%float 1400000000)
    as (s & Hnew & _ & Hidle); unfold in_range; try lia.
  - vm_compute. reflexivity.
  - vm_compute. reflexivity.
  - vm_compute. split; [discriminate|reflexivity].
  - exists s. split; [exact Hnew|exact Hidle].
Defined.

(** ** What the sweeper leaves alone *)

Lemma rotate_frame (s s' : aggregator) (b : bucket) :
  rotate s b = Ok s' -> same_frame s s'.
Proof.
  unfold rotate.
  destruct (Z.ltb_spec (bucketcnt s) 2); [discriminate|].
  destruct (Z.ltb_spec (Z.of_nat (length (buckets s))) (bucketcnt s));
    [discriminate|].
  destruct (at_index _ _); [|discriminate].
  intros [= <-]. repeat split. simpl.
  rewrite length_insert, length_app, length_take, !length_drop. lia.
Qed.

Lemma same_frame_trans (s1 s2 s3 : aggregator) :
  same_frame s1 s2 -> same_frame s2 s3 -> same_frame s1 s3.
Proof. unfold same_frame. intuition congruence. Qed.

Lemma expire_one_frame (now : Z) (fuel : nat) :
  forall (s s' : aggregator) (out out' : list line),
    expire_one fuel now s out = Some (Ok (s', out')) ->
    same_frame s s' /\ exists more, out' = out ++ more.
Proof.
  induction fuel as [|fuel IH]; intros s s' out out'; simpl; [discriminate|].
  destruct (at_index (buckets s) 0) as [b|]; [|discriminate].
  destruct (expired now s b).
  - destruct (rotate s b) as [s1| |] eqn:Hrot; try discriminate.
    intros Hrun. destruct (IH _ _ _ _ Hrun) as [Hf [more ->]]. split.
    + eapply same_frame_trans; [eapply rotate_frame; eauto|exact Hf].
    + exists (emit s b ++ more). now rewrite app_assoc.
  - intros [= <- <-]. split; [now repeat split|].
    exists []. now rewrite app_nil_r.
Qed.

Lemma expire_all_frame (now : Z) (fuel : nat) (aggregators : list aggregator) :
  forall (aggregators' : list aggregator) (out out' : list line),
    expire_all fuel now aggregators out = Some (Ok (aggregators', out')) ->
    Forall2 same_frame aggregators aggregators' /\
    exists more, out' = out ++ more.
Proof.
  induction aggregators as [|s rest IH]; intros aggs' out out'; simpl.
  - intros [= <- <-]. split; [constructor|]. exists []. now rewrite app_nil_r.
  - destruct (expire_one fuel now s out) as [[[s1 out1]| |]|] eqn:Hone;
      try discriminate.
    destruct (expire_all fuel now rest out1) as [[[rest1 out2]| |]|] eqn:Hall;
      try discriminate.
    intros [= <- <-].
    apply expire_one_frame in Hone as [Hf [more1 ->]].
    apply IH in Hall as [Hfs [more2 ->]].
    split; [now constructor|]. exists (more1 ++ more2). now rewrite app_assoc.
Qed.

Lemma Forall2_same_frame_trans (l1 l2 l3 : list aggregator) :
  Forall2 same_frame l1 l2 -> Forall2 same_frame l2 l3 ->
  Forall2 same_frame l1 l3.
Proof.
  intros H12. revert l3. induction H12 as [|x y l1 l2 Hxy _ IH]; intros l3 H23.
  - apply Forall2_nil_inv_l in H23 as ->. constructor.
  - apply Forall2_cons_inv_l in H23 as (z & l3' & Hyz & H23 & ->).
    constructor; [eapply same_frame_trans; eauto|now apply IH].
Qed.

Lemma Forall2_same_frame_refl (l : list aggregator) : Forall2 same_frame l l.
Proof. induction l; constructor; [now repeat split|assumption]. Qed.

Lemma totals_same_frame (f : aggregator -> Z) (l l' : list aggregator) :
  Forall2 (fun s s' => f s' = f s) l l' ->
  forall acc,
    foldl (fun tot a => C.size_t (tot + f a)) acc l'
    = foldl (fun tot a => C.size_t (tot + f a)) acc l.
Proof.
  induction 1 as [|x y l l' Hxy _ IH]; intros acc; [reflexivity|].
  simpl. now rewrite Hxy, IH.
Qed.

(** X11.  The thread of [aggregator_expire], over any readings of the
    clock and any aggregators: when it returns it has kept every
    aggregator in its place with its periods, its [bucketcnt], its
    statistics, its number of buckets and its [received] and [dropped];
    the totals that [aggregator_get_received] and
    [aggregator_get_dropped] return are the same before and after; and
    what had been written before is still there, in front of what it
    wrote. *)
Theorem sweeper_frame (fuel : nat) (clock : list Z) :
  forall (aggregators aggregators' : list aggregator)
         (out out' : list line),
    aggregator_expire fuel clock aggregators out
    = Some (Ok (aggregators', out')) ->
    Forall2 same_frame aggregators aggregators' /\
    aggregator_get_received aggregators'
    = aggregator_get_received aggregators /\
    aggregator_get_dropped aggregators'
    = aggregator_get_dropped aggregators /\
    exists more, out' = out ++ more.
Proof.
  assert (Hmain : forall aggs aggs' out out',
    aggregator_expire fuel clock aggs out = Some (Ok (aggs', out')) ->
    Forall2 same_frame aggs aggs' /\ exists more, out' = out ++ more).
  { induction clock as [|now clock IH]; intros aggs aggs' out out'; simpl.
    - intros [= <- <-]. split; [apply Forall2_same_frame_refl|].
      exists []. now rewrite app_nil_r.
    - destruct (expire_all fuel now aggs out) as [[[aggs1 out1]| |]|] eqn:Hall;
        try discriminate.
      intros Hrun. apply expire_all_frame in Hall as [Hf1 [more1 ->]].
      apply IH in Hrun as [Hf2 [more2 ->]]. split.
      + eapply Forall2_same_frame_trans; eauto.
      + exists (more1 ++ more2). now rewrite app_assoc. }
  intros aggs aggs' out out' Hrun.
  destruct (Hmain _ _ _ _ Hrun) as [Hf Hout].
  split; [exact Hf|]. split; [|split; [|exact Hout]].
  - apply totals_same_frame. eapply Forall2_impl; [exact Hf|].
    now intros s s' (? & _).
  - apply totals_same_frame. eapply Forall2_impl; [exact Hf|].
    now intros s s' (_ & ? & _).
Qed.

Lemma sweeper_frame_witness :
  exists (aggregators' : list aggregator) (out' : list line),
    aggregator_expire 5 [1400000040; 1400000060]
      [example_ring; example_ring] [] = Some (Ok (aggregators', out')) /\
    aggregator_get_received aggregators' = 0.
Proof.
  eexists. eexists. split; [vm_compute; reflexivity|].
  eapply eq_trans.
  - eapply (sweeper_frame 5 [1400000040; 1400000060]
              [example_ring; example_ring] _ [] _).
    vm_compute. reflexivity.
  - reflexivity.
Defined.

(** ** The totals *)

Lemma foldl_size_t (f : aggregator -> Z) (l : list aggregator) :
  forall acc, 0 <= acc < 2 ^ 64 ->
    foldl (fun tot a => C.size_t (tot + f a)) acc l
    = C.size_t (acc + total f l).
Proof.
  induction l as [|a l IH]; intros acc Hacc; simpl.
  - now rewrite Z.add_0_r, size_t_small.
  - rewrite IH.
    + unfold C.size_t, C.wrap_unsigned.
      rewrite Z.add_mod_idemp_l by lia. f_equal. lia.
    + unfold C.size_t, C.wrap_unsigned. apply Z.mod_pos_bound. lia.
Qed.

(** X12.  The three totals are the sums of the counters of all
    aggregators, reduced modulo 2^64: each addition of the loops wraps
    on its own, and the result is that of one wrap of the whole sum. *)
Theorem registry_totals (aggregators : list aggregator) :
  aggregator_get_received aggregators
  = total received aggregators mod 2 ^ 64 /\
  aggregator_get_sent aggregators = total sent aggregators mod 2 ^ 64 /\
  aggregator_get_dropped aggregators
  = total dropped aggregators mod 2 ^ 64.
Proof.
  unfold aggregator_get_received, aggregator_get_sent,
    aggregator_get_dropped.
  rewrite !foldl_size_t by lia. repeat split.
Qed.

Lemma total_app (f : aggregator -> Z) (l : list aggregator) (s : aggregator) :
  total f (l ++ [s]) = total f l + f s.
Proof. induction l as [|a l IH]; simpl; [lia|]. rewrite IH. lia. Qed.

(** X13.  An aggregator that [aggregator_new] has built and put at the
    end of the list makes [aggregator_hasaggregators] true, keeps the
    aggregators that were there in their places, and adds nothing to
    the three totals. *)
Theorem new_aggregator_registered (fresh : nat -> bucket)
    (now intv expiry : Z) (aggregators : list aggregator) (s : aggregator) :
  aggregator_new fresh now intv expiry = Ok s ->
  aggregator_hasaggregators (register aggregators s) = true /\
  (forall i a, aggregators !! i = Some a ->
               register aggregators s !! i = Some a) /\
  register aggregators s !! length aggregators = Some s /\
  aggregator_get_received (register aggregators s)
  = aggregator_get_received aggregators /\
  aggregator_get_sent (register aggregators s)
  = aggregator_get_sent aggregators /\
  aggregator_get_dropped (register aggregators s)
  = aggregator_get_dropped aggregators.
Proof.
  intros Hnew. unfold aggregator_new in Hnew.
  destruct (intv =? 0); [discriminate|]. injection Hnew as <-.
  unfold register. split; [now destruct aggregators|].
  split; [intros i a Ha; now apply lookup_app_l_Some|].
  split; [now rewrite lookup_app_r, Nat.sub_diag by lia|].
  unfold aggregator_get_received, aggregator_get_sent,
    aggregator_get_dropped.
  rewrite !foldl_size_t, !total_app by lia. simpl.
  now rewrite !Z.add_0_r.
Qed.

Lemma new_aggregator_registered_witness :
  aggregator_hasaggregators
    (register [example_ring] (set_computes example_ring [])) = true /\
  aggregator_get_received
    (register [example_ring] (set_computes example_ring []))
  = aggregator_get_received [example_ring].
Proof.
  destruct (new_aggregator_registered zeroed 1400000000 10 60
              [example_ring] (set_computes example_ring []))
    as (H1 & _ & _ & H2 & _).
  - exact example_ring_new.
  - split; [exact H1|exact H2].
Defined.

(** ** aggregator_start *)

(** X14.  [aggregator_start] returns 1 when the pipe, the registration
    of its read end with the dispatcher, the stream on its write end
    and the thread all succeed, and 0 otherwise.  The thread is started
    in the run that returns 1 and in no other; that run closes
    nothing; and every run that returns 0 after the pipe was made
    closes the read end and then the write end, each once. *)
Theorem aggregator_start_cleans_up (calls : start_calls) :
  (fst (aggregator_start calls) = 1 <->
   pipe_ok calls = true /\ addconnection_ok calls = true /\
   fdopen_ok calls = true /\ pthread_create_ok calls = true) /\
  (fst (aggregator_start calls) = 1 \/ fst (aggregator_start calls) = 0) /\
  (In ThreadStarted (snd (aggregator_start calls)) <->
   fst (aggregator_start calls) = 1) /\
  List.filter is_close (snd (aggregator_start calls)) =
    (if (fst (aggregator_start calls) =? 0) && pipe_ok calls
     then [ReadEndClosed; WriteEndClosed] else []).
Proof.
  destruct calls as [[] [] [] []]; vm_compute;
    repeat split; try tauto; try discriminate; try (left; reflexivity);
    try (right; reflexivity); intros; intuition (try discriminate).
Qed.

(** ** A round of the thread over all aggregators *)

Lemma expire_all_runs (now : Z) (aggregators : list aggregator) :
  in_range now ->
  forall out : list line,
    rings aggregators ->
    exists (enough : nat) (aggregators' : list aggregator)
           (lines : list line),
      (forall fuel, (enough <= fuel)%nat ->
         expire_all fuel now aggregators out
         = Some (Ok (aggregators', out ++ lines))) /\
      rings aggregators' /\
      Forall (fun s => forall b, b ∈ buckets s ->
                         now - expire s <= Bucket.start b + interval s)
             aggregators'.
Proof.
  intros Hnow. induction aggregators as [|s rest IH]; intros out Hrings.
  - exists 0%nat, [], []. simpl. rewrite app_nil_r.
    split; [reflexivity|]. split; constructor.
  - apply Forall_cons in Hrings as [[R Hrange] Hrest].
    destruct (ring_head s R) as [b0 Hb0].
    destruct (expire_one_tick now s out b0 R Hb0 Hnow (Hrange b0 Hb0))
      as (closed & s' & b0' & _ & Hrun & _ & R' & Hb0' & _ & Hr' & Hstop
          & _ & _ & _ & Hi' & He' & _).
    destruct (IH (out ++ concat (emit s <$> closed)) Hrest)
      as (enough & rest' & lines & Hall & Hrings' & Hnone).
    exists (Nat.max (S (length closed)) enough), (s' :: rest'),
      (concat (emit s <$> closed) ++ lines).
    split; [|split].
    + intros fuel Hf. simpl. rewrite Hrun, Hall by lia.
      now rewrite app_assoc.
    + constructor; [|exact Hrings']. split; [exact R'|].
      intros b Hb. rewrite Hb0' in Hb. now injection Hb as <-.
    + constructor; [|exact Hnone].
      intros b Hin. apply list_elem_of_lookup in Hin as [j Hj].
      rewrite Hi', He'.
      assert (Bucket.start b0' <= Bucket.start b); [|lia].
      destruct j as [|j].
      * rewrite Hb0' in Hj. injection Hj as <-. lia.
      * pose proof (ring_sorted s' 0 (S j) b0' b R' Hb0' Hj). lia.
Qed.

(** X15.  The thread of [aggregator_expire] on rings, with the clock
    and the starts of the rings within 2^62 seconds of the epoch: every
    round returns, whatever number of windows of whatever aggregator
    has closed since the round before, the aggregators are rings again
    after it, and after a round no aggregator has a bucket left whose
    window had closed at the reading of that round. *)
Theorem sweeper_rounds_return (clock : list Z) :
  Forall in_range clock ->
  forall (aggregators : list aggregator) (out : list line),
    rings aggregators ->
    exists (enough : nat) (aggregators' : list aggregator)
           (lines : list line),
      (forall fuel, (enough <= fuel)%nat ->
         aggregator_expire fuel clock aggregators out
         = Some (Ok (aggregators', out ++ lines))) /\
      rings aggregators' /\
      forall now, last clock = Some now ->
        Forall (fun s => forall b, b ∈ buckets s ->
                           now - expire s <= Bucket.start b + interval s)
               aggregators'.
Proof.
  induction clock as [|now clock IH]; intros Hclock aggs out Hrings.
  - exists 0%nat, aggs, []. simpl. rewrite app_nil_r.
    split; [reflexivity|]. split; [exact Hrings|]. discriminate.
  - apply Forall_cons in Hclock as [Hnow Hclock].
    destruct (expire_all_runs now aggs Hnow out Hrings)
      as (n1 & aggs1 & lines1 & Hall & Hrings1 & Hnone1).
    destruct (IH Hclock aggs1 (out ++ lines1) Hrings1)
      as (n2 & aggs2 & lines2 & Hrest & Hrings2 & Hnone2).
    exists (Nat.max n1 n2), aggs2, (lines1 ++ lines2).
    split; [|split; [exact Hrings2|]].
    + intros fuel Hf. simpl. rewrite Hall, Hrest by lia.
      now rewrite app_assoc.
    + intros now' Hlast. destruct clock as [|now2 clock'].
      * injection Hlast as <-. simpl in Hrest.
        specialize (Hrest (Nat.max n1 n2) ltac:(lia)).
        injection Hrest as <- _. exact Hnone1.
      * apply Hnone2. now rewrite last_cons_cons in Hlast.
Qed.

Lemma example_rings : rings [example_ring; example_ring].
Proof.
  assert (H : ring example_ring /\
              forall b0, buckets example_ring !! 0%nat = Some b0 ->
                         in_range (Bucket.start b0)).
  { split; [exact example_ring_ok|].
    intros b0 Hb0. injection Hb0 as <-. unfold in_range. simpl. lia. }
  unfold rings. apply Forall_cons. split; [exact H|].
  apply Forall_cons. split; [exact H|]. constructor.
Qed.

Lemma sweeper_rounds_return_witness :
  exists (enough : nat) (aggregators' : list aggregator)
         (lines : list line),
    forall fuel, (enough <= fuel)%nat ->
      aggregator_expire fuel [1400000040; 1400000100]
        [example_ring; example_ring] []
      = Some (Ok (aggregators', lines)).
Proof.
  destruct (sweeper_rounds_return [1400000040; 1400000100])
    with (aggregators := [example_ring; example_ring]) (out := @nil line)
    as (enough & aggs' & lines & Hrun & _).
  - apply Forall_cons. split; [unfold in_range; lia|].
    apply Forall_cons. split; [unfold in_range; lia|]. constructor.
  - exact example_rings.
  - exists enough, aggs', lines. exact Hrun.
Defined.

(** ** When a call touches memory outside the ring *)

(** X16.  On a ring, for a sample at or after the start of the ring
    (the difference of line 107 fitting a [long long]): the call
    returns unless the quotient of line 114, narrowed to [int], is
    negative, and then it is [buckets[slot]] for that negative [slot]
    that line 124 reads; it never divides by zero.  A quotient below
    2^31, that is, an epoch less than 2^31 intervals after the start of
    the ring, is always safe. *)
Theorem putmetric_faults_iff_negative_slot (s : aggregator) (b0 : bucket)
    (metric : string) (val : float) (epoch : Z) :
  ring s -> buckets s !! 0%nat = Some b0 ->
  0 <= epoch - Bucket.start b0 <= C.LLONG_MAX ->
  let slot := C.int ((epoch - Bucket.start b0) / interval s) in
  (slot < 0 -> putmetric_sample s metric val epoch = OutOfBounds slot) /\
  (0 <= slot ->
   exists s' log, putmetric_sample s metric val epoch = Ok (s', log)) /\
  ((epoch - Bucket.start b0) / interval s < 2 ^ 31 -> 0 <= slot).
Proof.
  intros R Hb0 Hfit slot. pose proof (ring_interval s R) as Hi.
  pose proof (ring_length s R) as Hlen.
  assert (Hrun : putmetric_sample s metric val epoch =
            if slot >=? bucketcnt s then
              Ok (set_dropped s (C.size_t (dropped s + 1)),
                  [log_future metric])
            else
              match at_index (buckets s) slot with
              | None => OutOfBounds slot
              | Some b =>
                  Ok (set_buckets
                        (set_received s (C.size_t (received s + 1)))
                        (<[Z.to_nat slot := bucket_put b val]> (buckets s)),
                      [])
              end).
  { unfold putmetric_sample.
    change 0 with (Z.of_nat 0) at 1. rewrite at_index_nat, Hb0.
    rewrite llong_small by (unfold C.LLONG_MIN; lia).
    destruct (Z.ltb_spec (epoch - Bucket.start b0) 0); [lia|].
    destruct (Z.eqb_spec (interval s) 0); [lia|].
    now rewrite Z.quot_div_nonneg by lia. }
  split; [|split].
  - intros Hneg. rewrite Hrun.
    pose proof (ring_bucketcnt s R). pose proof (ring_expire s R).
    assert (0 <= expire s / interval s) by (apply Z.div_pos; lia).
    destruct (Z.geb_spec slot (bucketcnt s)); [lia|].
    unfold at_index. now destruct (Z.ltb_spec slot 0); [|lia].
  - intros Hpos. rewrite Hrun.
    destruct (Z.geb_spec slot (bucketcnt s)); [eauto|].
    unfold at_index. destruct (Z.ltb_spec slot 0); [lia|].
    destruct (lookup_lt_is_Some_2 (buckets s) (Z.to_nat slot)) as [b Hb];
      [lia|].
    rewrite Hb. eauto.
  - intros Hq. subst slot. rewrite int_small.
    + apply Z.div_pos; lia.
    + split; [|exact Hq].
      assert (0 <= (epoch - Bucket.start b0) / interval s)
        by (apply Z.div_pos; lia).
      lia.
Qed.

Lemma putmetric_faults_iff_negative_slot_witness :
  putmetric_sample example_ring "foo" 1%float 1400000000000
  = OutOfBounds (-1873920763).
Proof.
  apply (putmetric_faults_iff_negative_slot example_ring
           (Bucket.mk 1399999950 0 0%float 0%float 0%float)
           "foo" 1%float 1400000000000).
  - exact example_ring_ok.
  - reflexivity.
  - vm_compute. split; discriminate.
  - vm_compute. reflexivity.
Defined.
